(** * Aseba HexFile: an Intel HEX reader and writer (src/cmd/HexFile.cpp)

    A shallow embedding of [Aseba::HexFile] and the properties of its
    decoder ([HexFile::read]) and encoder ([HexFile::write]).

    Conventions of the embedding:
    - C++ fixed-width unsigned integers are values of [Z] with the wrap-around
      of every conversion and operation written out ([uint8], [uint16],
      [uint32], [size_t]);
    - an input stream is its unread characters together with its [good()]
      state; an output stream is the list of characters written so far;
    - the member [HexFile::data] is threaded through [read] explicitly, and a
      C++ exception is an [outcome] returned next to the state of that member
      at the time of the throw. *)

From Stdlib Require Import ZArith List Ascii String Lia Bool Arith.
Import ListNotations.
Local Open Scope Z_scope.

(** ** Machine integers *)

Definition uint8 (x : Z) : Z := x mod 2 ^ 8.
Definition uint16 (x : Z) : Z := x mod 2 ^ 16.
Definition uint32 (x : Z) : Z := x mod 2 ^ 32.
(** [std::size_t] of an LP64 platform. *)
Definition size_t (x : Z) : Z := x mod 2 ^ 64.

(** [v.size()] of a [std::vector]. *)
Definition size {A : Type} (v : list A) : Z := Z.of_nat (List.length v).

(** ** Exceptions of the class *)

Inductive error : Type :=
| EarlyEOF (line : Z)
| InvalidRecord (line : Z)
| WrongCheckSum (line recordCheckSum computedCheckSum : Z)
| UnknownRecordType (line recordType : Z)
| FileOpeningError (fileName : string).

(** The line number an exception of [read] carries. *)
Definition error_line (e : error) : Z :=
  match e with
  | EarlyEOF l | InvalidRecord l | WrongCheckSum l _ _ | UnknownRecordType l _ => l
  | FileOpeningError _ => 0
  end.

(** ** Input streams *)

Module IStream.

(** The unread characters and [good()].  The only way such a stream leaves
    the good state is an attempt to read past its end, which sets [eofbit]
    and [failbit]; nothing in [read] clears them. *)
Record t : Type := mk { buf : list ascii; good : bool }.

Definition open (content : list ascii) : t := mk content true.

(** [Traits::eof()]. *)
Definition EOF : Z := -1.

(** [int c = stream.get();] an unformatted read: the next character as an
    [unsigned char], or [EOF] once the stream is exhausted or not good. *)
Definition get (s : t) : Z * t :=
  if good s then
    match buf s with
    | c :: rest => (Z.of_nat (nat_of_ascii c), mk rest true)
    | [] => (EOF, mk [] false)
    end
  else (EOF, s).

(** [std::isspace] of the classic locale. *)
Definition isspace (c : ascii) : bool :=
  let n := Z.of_nat (nat_of_ascii c) in
  (n =? 32) || ((9 <=? n) && (n <=? 13)).

Fixpoint skipws (l : list ascii) : list ascii :=
  match l with
  | c :: rest => if isspace c then skipws rest else l
  | [] => []
  end.

(** [char c; stream >> c;] a formatted read with [skipws] set (the default
    of a freshly opened stream): white space is skipped, then one character
    is stored in [c].  When the stream is exhausted nothing is stored: [c]
    keeps the indeterminate value [uninit] of the uninitialised local. *)
Definition extract_char (uninit : ascii) (s : t) : ascii * t :=
  if good s then
    match skipws (buf s) with
    | c :: rest => (c, mk rest true)
    | [] => (uninit, mk [] false)
    end
  else (uninit, s).

End IStream.

(** ** The record lexer *)

(** [HexFile::getUint4]: the comparisons and subtractions are on [int], the
    result is converted to [unsigned]. *)
Definition getUint4 (stream : IStream.t) : Z * IStream.t :=
  let (c, stream) := IStream.get stream in
  (uint32 (if c <=? 57 (* '9' *) then c - 48 (* '0' *)
           else if c <=? 70 (* 'F' *) then c - 65 (* 'A' *) + 10
           else c - 97 (* 'a' *) + 10),
   stream).

(** [HexFile::getUint8]; the operands of [|] are read left to right. *)
Definition getUint8 (stream : IStream.t) : Z * IStream.t :=
  let (hi, stream) := getUint4 stream in
  let (lo, stream) := getUint4 stream in
  (Z.lor (uint32 (Z.shiftl hi 4)) lo, stream).

(** [HexFile::getUint16]. *)
Definition getUint16 (stream : IStream.t) : Z * IStream.t :=
  let (hi, stream) := getUint8 stream in
  let (lo, stream) := getUint8 stream in
  (Z.lor (uint32 (Z.shiftl hi 8)) lo, stream).

(** ** The sparse memory model *)

(** Modelled from the spec: [HexFile::ChunkMap] and the member [data] are
    declared in HexFile.h, which is not part of the sources at hand.  The
    spec describes the model as an ordered mapping, ascending by address, from
    a 32-bit start address to a byte sequence; the code uses it through
    [begin()]/[end()] iteration, [it->first], [it->second] and
    [data[address] = ...], the interface of [std::map].  It is embedded as an
    association list whose keys are strictly ascending ([ChunkMap.ok]): the
    scan of [read] and the loop of [write] go through it in that order. *)
Module ChunkMap.

Definition t : Type := list (Z * list Z).

Definition empty : t := [].

(** [m[k] = v]: insertion at the key's place, or replacement of the mapped
    value when the key is present. *)
Fixpoint assign (m : t) (k : Z) (v : list Z) : t :=
  match m with
  | [] => [(k, v)]
  | (k', v') :: rest =>
      if k <? k' then (k, v) :: m
      else if k =? k' then (k, v) :: rest
      else (k', v') :: assign rest k v
  end.

Fixpoint find (m : t) (k : Z) : option (list Z) :=
  match m with
  | [] => None
  | (k', v') :: rest => if k =? k' then Some v' else find rest k
  end.

(** Keys strictly ascending: the iteration order of the container. *)
Fixpoint ok (m : t) : Prop :=
  match m with
  | [] => True
  | (k, _) :: rest =>
      match rest with
      | [] => True
      | (k', _) :: _ => k < k'
      end /\ ok rest
  end.

(** The byte the model holds at an absolute address, if any: the content of
    the first chunk, in iteration order, that covers the address. *)
Fixpoint byte_at (m : t) (a : Z) : option Z :=
  match m with
  | [] => None
  | (k, v) :: rest =>
      if (k <=? a) && (a <? k + size v)
      then nth_error v (Z.to_nat (a - k))
      else byte_at rest a
  end.

End ChunkMap.

(** ** The decoder *)

(** The scan of [read] for a chunk to fuse with (the [for] loop over [data]
    with its [break]): [Some] of the updated map when [found] ends up true.
    The chunk found keeps its key in both branches. *)
Fixpoint fuse (data : ChunkMap.t) (address : Z) (recordData : list Z)
  : option ChunkMap.t :=
  match data with
  | [] => None
  | (first, second) :: rest =>
      let chunkSize := size second in
      if address =? size_t (first + chunkSize) then
        (* tail fusable chunk found *)
        Some ((first, second ++ recordData) :: rest)
      else if size_t (address + size recordData) =? first then
        (* head fusable chunk found *)
        Some ((first, recordData ++ second) :: rest)
      else
        match fuse rest address recordData with
        | Some rest' => Some ((first, second) :: rest')
        | None => None
        end
  end.

(** The insertion of a data record: fuse, or [data[address] = recordData]. *)
Definition insert_run (data : ChunkMap.t) (address : Z) (recordData : list Z)
  : ChunkMap.t :=
  match fuse data address recordData with
  | Some data' => data'
  | None => ChunkMap.assign data address recordData
  end.

(** The data bytes of a record: [dataLength] calls of [getUint8], each added
    to the running checksum. *)
Fixpoint read_data (n : nat) (ifs : IStream.t) (computedCheckSum : Z)
  : list Z * Z * IStream.t :=
  match n with
  | O => ([], computedCheckSum, ifs)
  | S n' =>
      let (v, ifs) := getUint8 ifs in
      let d := uint8 v in
      let computedCheckSum := uint8 (computedCheckSum + d) in
      let '(recordData, computedCheckSum, ifs) :=
        read_data n' ifs computedCheckSum in
      (d :: recordData, computedCheckSum, ifs)
  end.

(** How a call of [read] ends. *)
Inductive outcome : Type :=
| Returned
| Thrown (e : error).

(** One turn of the [while] loop of [read]. *)
Inductive turn : Type :=
| Continue (ifs : IStream.t) (baseAddress : Z) (data : ChunkMap.t)
| Stop (data : ChunkMap.t) (o : outcome).

(** [computedCheckSum = 1 + ~computedCheckSum;] on a [uint8]. *)
Definition negate8 (computedCheckSum : Z) : Z :=
  uint8 (1 + Z.lnot computedCheckSum).

(** The body of the [while] loop; [uninit] is the indeterminate value of the
    local [c] of this turn. *)
Definition read_record (uninit : ascii) (ifs : IStream.t)
    (lineCounter baseAddress : Z) (data : ChunkMap.t) : turn :=
  (* leading ":" character *)
  let (c, ifs) := IStream.extract_char uninit ifs in
  if negb (Ascii.eqb c ":"%char) then
    Stop data (Thrown (InvalidRecord lineCounter))
  else
    let computedCheckSum := 0 in
    (* record data length *)
    let (v, ifs) := getUint8 ifs in
    let dataLength := uint8 v in
    let computedCheckSum := uint8 (computedCheckSum + dataLength) in
    (* short address *)
    let (v, ifs) := getUint16 ifs in
    let lowAddress := uint16 v in
    let computedCheckSum := uint8 (computedCheckSum + lowAddress) in
    let computedCheckSum := uint8 (computedCheckSum + Z.shiftr lowAddress 8) in
    (* record type *)
    let (v, ifs) := getUint8 ifs in
    let recordType := uint8 v in
    let computedCheckSum := uint8 (computedCheckSum + recordType) in
    match recordType with
    | 0 =>
        (* data record *)
        let '(recordData, computedCheckSum, ifs) :=
          read_data (Z.to_nat dataLength) ifs computedCheckSum in
        (* verify checksum *)
        let (v, ifs) := getUint8 ifs in
        let checkSum := uint8 v in
        let computedCheckSum := negate8 computedCheckSum in
        if negb (checkSum =? computedCheckSum) then
          Stop data (Thrown (WrongCheckSum lineCounter checkSum computedCheckSum))
        else
          (* compute address *)
          let address := uint32 (lowAddress + baseAddress) in
          Continue ifs baseAddress (insert_run data address recordData)
    | 1 =>
        (* end of file record *)
        Stop data Returned
    | 2 =>
        (* extended segment address record *)
        if negb (dataLength =? 2) then
          Stop data (Thrown (InvalidRecord lineCounter))
        else
          let (v, ifs) := getUint16 ifs in
          let highAddress := uint16 v in
          let computedCheckSum := uint8 (computedCheckSum + highAddress) in
          let computedCheckSum :=
            uint8 (computedCheckSum + Z.shiftr highAddress 8) in
          let baseAddress := uint32 (Z.shiftl highAddress 4) in
          let (v, ifs) := getUint8 ifs in
          let checkSum := uint8 v in
          let computedCheckSum := negate8 computedCheckSum in
          if negb (checkSum =? computedCheckSum) then
            Stop data
              (Thrown (WrongCheckSum lineCounter checkSum computedCheckSum))
          else Continue ifs baseAddress data
    | 4 =>
        (* extended linear address record *)
        if negb (dataLength =? 2) then
          Stop data (Thrown (InvalidRecord lineCounter))
        else
          let (v, ifs) := getUint16 ifs in
          let highAddress := uint16 v in
          let computedCheckSum := uint8 (computedCheckSum + highAddress) in
          let computedCheckSum :=
            uint8 (computedCheckSum + Z.shiftr highAddress 8) in
          let baseAddress := uint32 (Z.shiftl highAddress 16) in
          let (v, ifs) := getUint8 ifs in
          let checkSum := uint8 v in
          let computedCheckSum := negate8 computedCheckSum in
          if negb (checkSum =? computedCheckSum) then
            Stop data
              (Thrown (WrongCheckSum lineCounter checkSum computedCheckSum))
          else Continue ifs baseAddress data
    | _ => Stop data (Thrown (UnknownRecordType lineCounter recordType))
    end.

(** The [while (ifs.good())] loop and the [throw EarlyEOF] after it.  The
    local [c] is a fresh uninitialised variable on every turn: [uninit] gives
    its indeterminate value, turn by turn (the turns are numbered by
    [lineCounter]).  [None] only when [fuel] turns were not enough. *)
Fixpoint read_loop (fuel : nat) (uninit : Z -> ascii) (ifs : IStream.t)
    (lineCounter baseAddress : Z) (data : ChunkMap.t)
  : option (ChunkMap.t * outcome) :=
  match fuel with
  | O => None
  | S fuel' =>
      if IStream.good ifs then
        match read_record (uninit lineCounter) ifs lineCounter baseAddress data with
        | Continue ifs' baseAddress' data' =>
            read_loop fuel' uninit ifs' (lineCounter + 1) baseAddress' data'
        | Stop data' o => Some (data', o)
        end
      else Some (data, Thrown (EarlyEOF lineCounter))
  end.

(** [HexFile::read] from the opening of the file on, for a file of the given
    content and an object whose member [data] holds [data] before the call:
    the member after the call, and how the call ended.  (Opening the file is
    left out, and with it the test of [ifs.bad()] and [FileOpeningError].)
    Every turn that continues has consumed a character, so
    [length content + 2] turns are enough ([read_total]). *)
Definition read (uninit : Z -> ascii) (content : list ascii) (data : ChunkMap.t)
  : option (ChunkMap.t * outcome) :=
  read_loop (List.length content + 2) uninit (IStream.open content) 0 0 data.

(** ** Output streams *)

Module OStream.

(** The characters written so far. *)
Definition t : Type := list ascii.

Definition open : t := [].

(** [stream << "literal"]. *)
Definition put (s : t) (lit : string) : t := s ++ list_ascii_of_string lit.

Definition hex_digit (n : Z) : ascii :=
  ascii_of_nat (Z.to_nat (if n <? 10 then 48 + n else 87 + n)).

(** The digits of an [unsigned] in base 16, most significant first, lower
    case ([write] sets the flags to [std::ios::hex] alone); an [unsigned]
    has at most eight of them. *)
Fixpoint hex_digits (fuel : nat) (v : Z) (acc : list ascii) : list ascii :=
  match fuel with
  | O => acc
  | S fuel' =>
      let acc := hex_digit (v mod 16) :: acc in
      if v / 16 =? 0 then acc else hex_digits fuel' (v / 16) acc
  end.

(** [stream << std::setw(2); stream << v;] for an [unsigned] [v], with the
    fill character ['0'] that [write] sets. *)
Definition put_hex2 (s : t) (v : Z) : t :=
  let digits := hex_digits 8 (uint32 v) [] in
  s ++ repeat "0"%char (2 - List.length digits) ++ digits.

End OStream.

(** ** The encoder *)

(** [HexFile::writeExtendedLinearAddressRecord]. *)
Definition writeExtendedLinearAddressRecord (stream : OStream.t) (addr16 : Z)
  : OStream.t :=
  let checkSum := 0 in
  let stream := OStream.put stream ":02000002" in
  let checkSum := uint8 (checkSum + 2) in
  let checkSum := uint8 (checkSum + 0) in
  let checkSum := uint8 (checkSum + 0) in
  let checkSum := uint8 (checkSum + 2) in
  let stream := OStream.put_hex2 stream (Z.land addr16 255) in
  let checkSum := uint8 (checkSum + Z.land addr16 255) in
  let stream := OStream.put_hex2 stream (Z.shiftr addr16 8) in
  let checkSum := uint8 (checkSum + Z.shiftr addr16 8) in
  let checkSum := uint8 (Z.lnot checkSum + 1) in
  let stream := OStream.put_hex2 stream checkSum in
  stream ++ [ascii_of_nat 10].

(** [HexFile::writeData]; [data] is the buffer of [count8] bytes. *)
Definition writeData (stream : OStream.t) (addr16 count8 : Z) (data : list Z)
  : OStream.t :=
  let checkSum := 0 in
  let stream := OStream.put stream ":" in
  let stream := OStream.put_hex2 stream count8 in
  let checkSum := uint8 (checkSum + count8) in
  let stream := OStream.put_hex2 stream (Z.land addr16 255) in
  let checkSum := uint8 (checkSum + Z.land addr16 255) in
  let stream := OStream.put_hex2 stream (Z.shiftr addr16 8) in
  let checkSum := uint8 (checkSum + Z.shiftr addr16 8) in
  let stream := OStream.put stream "00" in
  let checkSum := uint8 (checkSum + 0) in
  let '(stream, checkSum) :=
    fold_left
      (fun '(stream, checkSum) d =>
         (OStream.put_hex2 stream d, uint8 (checkSum + d)))
      (firstn (Z.to_nat count8) data) (stream, checkSum) in
  let checkSum := uint8 (Z.lnot checkSum + 1) in
  let stream := OStream.put_hex2 stream checkSum in
  stream ++ [ascii_of_nat 10].

(** The inner [for (unsigned count = 0; count < amount;)] loop of [write] for
    the chunk [(address, second)].  [None] only when [fuel] turns were not
    enough. *)
Fixpoint write_rows (fuel : nat) (ofs : OStream.t) (address amount : Z)
    (second : list Z) (count highAddress : Z) : option OStream.t :=
  if count <? amount then
    match fuel with
    | O => None
    | S fuel' =>
        (* check if we have changed 64 K boundary *)
        let newHighAddress := Z.shiftr (uint32 (address + count)) 16 in
        let ofs :=
          if negb (newHighAddress =? highAddress)
          then writeExtendedLinearAddressRecord ofs newHighAddress
          else ofs in
        let highAddress := newHighAddress in
        (* write data *)
        let rowCount := Z.min (uint32 (amount - count)) 32 in
        let lowAddress := Z.land address 65535 in
        let buffer :=
          firstn (Z.to_nat rowCount) (skipn (Z.to_nat count) second) in
        let ofs := writeData ofs lowAddress rowCount buffer in
        (* increment counters *)
        write_rows fuel' ofs address amount second (uint32 (count + rowCount))
          highAddress
    end
  else Some ofs.

(** The body of the outer loop of [write], for one chunk. *)
Definition write_chunk (ofs : OStream.t) (chunk : Z * list Z)
  : option OStream.t :=
  let (first, second) := chunk in
  (* split address *)
  let address := uint32 first in
  let amount := uint32 (size second) in
  let highAddress := Z.shiftr address 16 in
  let ofs := writeExtendedLinearAddressRecord ofs highAddress in
  write_rows (List.length second) ofs address amount second 0 highAddress.

Fixpoint write_chunks (ofs : OStream.t) (data : ChunkMap.t)
  : option OStream.t :=
  match data with
  | [] => Some ofs
  | chunk :: rest =>
      match write_chunk ofs chunk with
      | Some ofs => write_chunks ofs rest
      | None => None
      end
  end.

(** [HexFile::write] into an opened stream: the text written. *)
Definition write (data : ChunkMap.t) : option (list ascii) :=
  match write_chunks OStream.open data with
  | Some ofs => Some (OStream.put ofs ":00000001FF")
  | None => None
  end.

(** * Vocabulary of the statements *)

(** The value of a hexadecimal digit, of either case. *)
Definition hexval (c : ascii) : option Z :=
  let n := Z.of_nat (nat_of_ascii c) in
  if (48 <=? n) && (n <=? 57) then Some (n - 48)
  else if (65 <=? n) && (n <=? 70) then Some (n - 55)
  else if (97 <=? n) && (n <=? 102) then Some (n - 87)
  else None.

(** The byte two hexadecimal digits stand for, most significant first. *)
Definition hex2_value (cs : list ascii) : option Z :=
  match cs with
  | [c1; c2] =>
      match hexval c1, hexval c2 with
      | Some h, Some l => Some (16 * h + l)
      | _, _ => None
      end
  | _ => None
  end.

(** One record of the wire format, field by field, each a byte. *)
Record hexrecord : Type := mkrecord {
  r_length : Z;
  r_address_hi : Z;
  r_address_lo : Z;
  r_type : Z;
  r_payload : list Z;
  r_checksum : Z
}.

(** The 16-bit address field of a record. *)
Definition r_address (r : hexrecord) : Z :=
  256 * r_address_hi r + r_address_lo r.

(** The sum of the bytes of a payload. *)
Definition sum (bytes : list Z) : Z := fold_right Z.add 0 bytes.

(** The unsigned 8-bit sum of every byte of the record before its checksum. *)
Definition r_sum (r : hexrecord) : Z :=
  uint8 (r_length r + r_address_hi r + r_address_lo r + r_type r
         + sum (r_payload r)).

(** The checksum the format asks for: the two's complement of [r_sum]. *)
Definition r_expected (r : hexrecord) : Z := (256 - r_sum r) mod 256.

(** [is_text txt r]: [txt] is a line of text for the record [r], a colon
    followed by two hexadecimal digits, of either case, per byte. *)
Inductive is_text : list ascii -> hexrecord -> Prop :=
| is_text_intro (len hi lo ty ck : list ascii) (payload : list (list ascii))
    (r : hexrecord) :
    hex2_value len = Some (r_length r) ->
    hex2_value hi = Some (r_address_hi r) ->
    hex2_value lo = Some (r_address_lo r) ->
    hex2_value ty = Some (r_type r) ->
    Forall2 (fun cs b => hex2_value cs = Some b) payload (r_payload r) ->
    hex2_value ck = Some (r_checksum r) ->
    is_text (":"%char :: len ++ hi ++ lo ++ ty ++ List.concat payload ++ ck) r.

(** The white space that may separate two records. *)
Definition blank (ws : list ascii) : Prop :=
  Forall (fun c => IStream.isspace c = true) ws.

(** The text the encoder's formatter gives a byte: a way to build the text of
    a record. *)
Definition hex2 (b : Z) : list ascii := OStream.put_hex2 [] b.

(** The line of text for a record, in the encoder's lower case. *)
Definition text_of (r : hexrecord) : list ascii :=
  ":"%char :: hex2 (r_length r) ++ hex2 (r_address_hi r)
    ++ hex2 (r_address_lo r) ++ hex2 (r_type r)
    ++ List.concat (map hex2 (r_payload r)) ++ hex2 (r_checksum r).

(** Every field of the record is a byte. *)
Definition bytes_ok (r : hexrecord) : Prop :=
  0 <= r_length r < 256 /\ 0 <= r_address_hi r < 256
  /\ 0 <= r_address_lo r < 256 /\ 0 <= r_type r < 256
  /\ Forall (fun b => 0 <= b < 256) (r_payload r)
  /\ 0 <= r_checksum r < 256.

(** What is left to read: a good stream is worth one more than its unread
    characters, a stream that is not good nothing. *)
Definition measure (s : IStream.t) : nat :=
  if IStream.good s then S (List.length (IStream.buf s)) else O.

(** A data record declares as many bytes as it carries; an address-extension
    record declares, and carries, two. *)
Definition framed (r : hexrecord) : Prop :=
  (r_type r = 0 /\ r_length r = size (r_payload r))
  \/ ((r_type r = 2 \/ r_type r = 4)
      /\ r_length r = 2 /\ List.length (r_payload r) = 2%nat).

(** [changed r r']: the record [r'] is [r] with one byte of its address field
    or of its payload replaced by a different byte; the other fields, the
    checksum among them, are those of [r]. *)
Inductive changed (r : hexrecord) : hexrecord -> Prop :=
| changed_address_hi (b : Z) :
    b <> r_address_hi r ->
    changed r (mkrecord (r_length r) b (r_address_lo r) (r_type r)
                 (r_payload r) (r_checksum r))
| changed_address_lo (b : Z) :
    b <> r_address_lo r ->
    changed r (mkrecord (r_length r) (r_address_hi r) b (r_type r)
                 (r_payload r) (r_checksum r))
| changed_payload (before after : list Z) (old b : Z) :
    r_payload r = before ++ old :: after ->
    b <> old ->
    changed r (mkrecord (r_length r) (r_address_hi r) (r_address_lo r)
                 (r_type r) (before ++ b :: after) (r_checksum r)).

(** The end of a line, as the encoder writes it. *)
Definition newline : list ascii := [ascii_of_nat 10].

(** A record with the checksum the format asks for. *)
Definition sealed (len hi lo ty : Z) (payload : list Z) : hexrecord :=
  mkrecord len hi lo ty payload
    (r_expected (mkrecord len hi lo ty payload 0)).

(** The data record for [payload] at the 16-bit address [address]. *)
Definition data_record (address : Z) (payload : list Z) : hexrecord :=
  sealed (size payload) (address / 256) (address mod 256) 0 payload.

(** The extended segment address record of the 16-bit [value]. *)
Definition segment_record (value : Z) : hexrecord :=
  sealed 2 0 0 2 [value / 256; value mod 256].

(** The extended linear address record of the 16-bit [value]. *)
Definition linear_record (value : Z) : hexrecord :=
  sealed 2 0 0 4 [value / 256; value mod 256].

(** The end-of-file record, as the encoder writes it. *)
Definition eof_text : list ascii := list_ascii_of_string ":00000001FF".

(** A payload of bytes. *)
Definition bytes (payload : list Z) : Prop :=
  Forall (fun b => 0 <= b < 256) payload.

(** A record that the decoder accepts. *)
Definition accepted (r : hexrecord) : Prop :=
  bytes_ok r /\ framed r /\ r_checksum r = r_expected r.

(** The text of a file: every record followed by the white space that
    separates it from the next one, or from the end of the file. *)
Fixpoint layout (rs : list (hexrecord * list ascii)) : list ascii :=
  match rs with
  | [] => []
  | (r, ws) :: rs' => text_of r ++ ws ++ layout rs'
  end.

(** A file of accepted records, separated by white space. *)
Definition well_formed (rs : list (hexrecord * list ascii)) : Prop :=
  Forall (fun item => accepted (fst item) /\ blank (snd item)) rs.

(** What the turn after the last record throws: an
    [UnknownRecordType] when the stale [c] holds a colon, an [InvalidRecord]
    otherwise. *)
Definition exhausted (uninit : ascii) (lineCounter : Z) : error :=
  if Ascii.eqb uninit ":"%char
  then UnknownRecordType lineCounter 255
  else InvalidRecord lineCounter.

(** The first [n] turns of the loop, when every one of them continues: the
    stream, the base address and the model after them. *)
Fixpoint accept (n : nat) (uninit : Z -> ascii) (ifs : IStream.t)
    (lineCounter baseAddress : Z) (data : ChunkMap.t)
  : option (IStream.t * Z * ChunkMap.t) :=
  match n with
  | O => Some (ifs, baseAddress, data)
  | S n' =>
      if IStream.good ifs then
        match read_record (uninit lineCounter) ifs lineCounter baseAddress data with
        | Continue ifs' baseAddress' data' =>
            accept n' uninit ifs' (lineCounter + 1) baseAddress' data'
        | Stop _ _ => None
        end
      else None
  end.

(** The invariant the spec states for the model: of two chunks, the one that
    starts first ends strictly before the other starts. *)
Definition separated (m : ChunkMap.t) : Prop :=
  forall a1 b1 a2 b2,
    In (a1, b1) m -> In (a2, b2) m -> a1 < a2 -> a1 + size b1 < a2.

(** Chunks whose end addresses fit a [size_t]. *)
Definition in_range (m : ChunkMap.t) : Prop :=
  forall a b, In (a, b) m -> 0 <= a /\ a + size b < 2 ^ 64.

(** The run lies strictly before every chunk, or starts at or after the end of
    it: it overlaps no chunk and ends where no chunk starts. *)
Definition clear_of (m : ChunkMap.t) (address : Z) (recordData : list Z)
  : Prop :=
  forall a b,
    In (a, b) m -> address + size recordData < a \/ a + size b <= address.

(** The model with the bytes of the chunk at [k] replaced by [v]. *)
Definition replaced (m : ChunkMap.t) (k : Z) (v : list Z) : ChunkMap.t :=
  map (fun c => if fst c =? k then (fst c, v) else c) m.

(** A 16-bit value with its two bytes exchanged. *)
Definition swap16 (v : Z) : Z := 256 * (v mod 256) + v / 256.

(** ** Vocabulary of the further properties *)

(** The digit of a value below 16 in upper case. *)
Definition upper_digit (n : Z) : ascii :=
  ascii_of_nat (Z.to_nat (if n <? 10 then 48 + n else 55 + n)).

(** The 16-bit value an address-extension record carries. *)
Definition r_value (r : hexrecord) : Z :=
  match r_payload r with
  | [p0; p1] => 256 * p0 + p1
  | _ => 0
  end.

(** What an accepted record makes of the base address and of the model: a
    data record is inserted at the base address plus its own, a segment or
    linear record replaces the base address. *)
Definition effect (state : Z * ChunkMap.t) (r : hexrecord)
  : Z * ChunkMap.t :=
  let (baseAddress, data) := state in
  if r_type r =? 0 then
    (baseAddress,
     insert_run data (uint32 (r_address r + baseAddress)) (r_payload r))
  else if r_type r =? 2 then (uint32 (Z.shiftl (r_value r) 4), data)
  else (uint32 (Z.shiftl (r_value r) 16), data).

(** The records of a file, one after the other. *)
Definition effects (rs : list (hexrecord * list ascii))
    (state : Z * ChunkMap.t) : Z * ChunkMap.t :=
  fold_left (fun state item => effect state (fst item)) rs state.


(** The start addresses of the chunks, in iteration order. *)
Definition keys (m : ChunkMap.t) : list Z := map fst m.

(** The rows of a chunk: its bytes 32 at a time, the last row holding what
    is left. *)
Fixpoint slices (fuel : nat) (l : list Z) : list (list Z) :=
  match fuel with
  | O => []
  | S fuel' =>
      match l with
      | [] => []
      | _ :: _ => firstn 32 l :: slices fuel' (skipn 32 l)
      end
  end.

Definition rows (second : list Z) : list (list Z) :=
  slices (List.length second) second.

(** The payloads of the data records of a file, in order. *)
Definition data_rows (rs : list (hexrecord * list ascii)) : list (list Z) :=
  flat_map
    (fun item => if r_type (fst item) =? 0 then [r_payload (fst item)] else [])
    rs.

(** A line the encoder writes while it goes through the chunk at [address]:
    an address record for a 64K page (type 02, the bytes of the page
    exchanged), or a data record of 1 to 32 bytes for the low address of the
    chunk (its bytes exchanged); a newline ends the line. *)
Definition written_for (address : Z) (item : hexrecord * list ascii) : Prop :=
  snd item = newline
  /\ ((exists page,
          0 <= page < 65536 /\ fst item = segment_record (swap16 page))
      \/ (exists row,
             0 < size row <= 32 /\ bytes row
             /\ fst item = data_record (swap16 (Z.land address 65535)) row)).

(** A chunk of bytes, of a size that fits an [unsigned]. *)
Definition chunk_ok (chunk : Z * list Z) : Prop :=
  bytes (snd chunk) /\ size (snd chunk) < 2 ^ 32.

(** The lines the encoder writes for the rows of a chunk at [address], the
    first of them [count] bytes into the chunk, [highAddress] being the page
    of the last address record written: before a row that starts in another
    page, the address record of that page; for every row, the data record of
    the row, for the low 16 bits of the start address of the chunk. *)
Fixpoint row_lines (address count highAddress : Z) (rws : list (list Z))
  : list (hexrecord * list ascii) :=
  match rws with
  | [] => []
  | row :: rws' =>
      let page := Z.shiftr (uint32 (address + count)) 16 in
      (if page =? highAddress then []
       else [(segment_record (swap16 page), newline)])
        ++ (data_record (swap16 (Z.land address 65535)) row, newline)
        :: row_lines address (count + size row) page rws'
  end.

(** * Properties *)

(** ** Arithmetic of the machine integers *)

Lemma uint8_small (x : Z) : 0 <= x < 256 -> uint8 x = x.
Proof. intros H. unfold uint8. apply Z.mod_small. lia. Qed.

Lemma uint16_small (x : Z) : 0 <= x < 65536 -> uint16 x = x.
Proof. intros H. unfold uint16. apply Z.mod_small. lia. Qed.

Lemma uint32_small (x : Z) : 0 <= x < 4294967296 -> uint32 x = x.
Proof. intros H. unfold uint32. apply Z.mod_small. lia. Qed.

Lemma size_t_small (x : Z) : 0 <= x < 2 ^ 64 -> size_t x = x.
Proof. intros H. unfold size_t. apply Z.mod_small. lia. Qed.

Lemma uint8_range (x : Z) : 0 <= uint8 x < 256.
Proof. unfold uint8. apply Z.mod_pos_bound. lia. Qed.

Lemma uint8_add_l (x y : Z) : uint8 (uint8 x + y) = uint8 (x + y).
Proof. unfold uint8. apply Zplus_mod_idemp_l. Qed.

Lemma uint8_add_r (x y : Z) : uint8 (x + uint8 y) = uint8 (x + y).
Proof. unfold uint8. apply Zplus_mod_idemp_r. Qed.

Lemma size_nonneg {A : Type} (v : list A) : 0 <= size v.
Proof. unfold size. lia. Qed.

Lemma size_app {A : Type} (v w : list A) : size (v ++ w) = size v + size w.
Proof. unfold size. rewrite length_app. lia. Qed.

(** [x | y] is [x + y] when [x] is a multiple of [2 ^ n] and [y] fits in [n]
    bits: how the lexer joins digits and bytes. *)
Lemma lor_shiftl_add (hi lo n : Z) :
  0 <= n -> 0 <= lo < 2 ^ n -> Z.lor (Z.shiftl hi n) lo = hi * 2 ^ n + lo.
Proof.
  intros Hn Hlo.
  assert (Hland : Z.land (Z.shiftl hi n) lo = 0).
  { apply Z.bits_inj'. intros k Hk.
    rewrite Z.land_spec, Z.bits_0.
    destruct (Z.lt_ge_cases k n) as [Hlt | Hge].
    - rewrite Z.shiftl_spec_low by assumption. reflexivity.
    - destruct (Z.eq_dec lo 0) as [-> | Hnz].
      + rewrite Z.bits_0. apply andb_false_r.
      + rewrite (Z.bits_above_log2 lo k); [apply andb_false_r | lia |].
        apply Z.log2_lt_pow2; [lia |].
        apply Z.lt_le_trans with (2 ^ n); [lia |].
        apply Z.pow_le_mono_r; lia. }
  rewrite <- Z.shiftl_mul_pow2 by assumption.
  rewrite <- Z.lxor_lor by assumption.
  symmetry. apply Z.add_nocarry_lxor. assumption.
Qed.

(** [1 + ~x] on a [uint8] is the two's complement [(256 - x) mod 256]. *)
Lemma negate8_spec (x : Z) : negate8 x = (256 - x) mod 256.
Proof.
  unfold negate8, uint8, Z.lnot.
  replace (1 + (Z.pred (- x))) with (256 - x + (-1) * 256) by lia.
  rewrite Z.mod_add by lia. reflexivity.
Qed.

(** ** The lexer on well-formed text *)

Lemma hexval_range (c : ascii) (n : Z) : hexval c = Some n -> 0 <= n < 16.
Proof.
  unfold hexval.
  repeat match goal with
         | |- context [if ?b then _ else _] => destruct b eqn:?
         end; intros H; inversion H; subst; lia.
Qed.

Lemma hex2_value_range (cs : list ascii) (b : Z) :
  hex2_value cs = Some b -> 0 <= b < 256.
Proof.
  destruct cs as [| c1 [| c2 [| c3 cs]]]; unfold hex2_value; try discriminate.
  destruct (hexval c1) as [h |] eqn:H1; [| discriminate].
  destruct (hexval c2) as [l |] eqn:H2; [| discriminate].
  intros H. assert (Hb : b = 16 * h + l) by congruence. subst b.
  apply hexval_range in H1, H2. lia.
Qed.

Lemma getUint4_hex (c : ascii) (n : Z) (rest : list ascii) :
  hexval c = Some n ->
  getUint4 (IStream.mk (c :: rest) true) = (n, IStream.mk rest true).
Proof.
  unfold hexval, getUint4, IStream.get. cbn [IStream.good IStream.buf].
  set (k := Z.of_nat (nat_of_ascii c)).
  intros H. f_equal.
  destruct (Z.leb_spec 48 k), (Z.leb_spec k 57), (Z.leb_spec 65 k),
    (Z.leb_spec k 70), (Z.leb_spec 97 k), (Z.leb_spec k 102);
    cbn [andb] in H; try discriminate H; try lia;
    assert (Hn : 0 <= n < 16) by (inversion H; lia);
    rewrite uint32_small by lia; inversion H; lia.
Qed.

Lemma getUint8_hex2 (cs : list ascii) (b : Z) (rest : list ascii) :
  hex2_value cs = Some b ->
  getUint8 (IStream.mk (cs ++ rest) true) = (b, IStream.mk rest true).
Proof.
  destruct cs as [| c1 [| c2 [| c3 cs]]]; unfold hex2_value; try discriminate.
  destruct (hexval c1) as [h |] eqn:H1; [| discriminate].
  destruct (hexval c2) as [l |] eqn:H2; [| discriminate].
  intros H. assert (Hb : b = 16 * h + l) by congruence. subst b. clear H.
  unfold getUint8. cbn [app].
  rewrite (getUint4_hex _ _ _ H1), (getUint4_hex _ _ _ H2).
  apply hexval_range in H1, H2.
  f_equal.
  rewrite Z.shiftl_mul_pow2 by lia.
  rewrite uint32_small by lia.
  rewrite <- Z.shiftl_mul_pow2 by lia.
  rewrite lor_shiftl_add by lia. lia.
Qed.

Lemma getUint16_hex2 (hi lo : list ascii) (h l : Z) (rest : list ascii) :
  hex2_value hi = Some h -> hex2_value lo = Some l ->
  getUint16 (IStream.mk (hi ++ lo ++ rest) true)
  = (256 * h + l, IStream.mk rest true).
Proof.
  intros Hh Hl. unfold getUint16.
  rewrite (getUint8_hex2 _ _ _ Hh), (getUint8_hex2 _ _ _ Hl).
  apply hex2_value_range in Hh, Hl.
  f_equal.
  rewrite Z.shiftl_mul_pow2 by lia.
  rewrite uint32_small by lia.
  rewrite <- Z.shiftl_mul_pow2 by lia.
  rewrite lor_shiftl_add by lia. lia.
Qed.

Lemma read_data_hex2 (payload : list (list ascii)) (bytes : list Z)
    (rest : list ascii) (cs : Z) :
  Forall2 (fun t b => hex2_value t = Some b) payload bytes ->
  0 <= cs < 256 ->
  read_data (List.length bytes) (IStream.mk (List.concat payload ++ rest) true) cs
  = (bytes, uint8 (cs + sum bytes), IStream.mk rest true).
Proof.
  intros H. revert cs.
  induction H as [| t b payload bytes Hb Hrest IH]; intros cs Hcs.
  - cbn [List.length read_data sum fold_right List.concat app].
    rewrite Z.add_0_r, uint8_small by assumption. reflexivity.
  - cbn [List.length read_data List.concat]. rewrite <- app_assoc.
    rewrite (getUint8_hex2 _ _ _ Hb).
    pose proof (hex2_value_range _ _ Hb) as Rb.
    rewrite (uint8_small b) by assumption.
    rewrite (IH (uint8 (cs + b))) by apply uint8_range.
    rewrite uint8_add_l.
    cbn [sum fold_right]. fold (sum bytes).
    do 3 f_equal. lia.
Qed.

Lemma skipws_blank (ws rest : list ascii) :
  blank ws -> IStream.skipws (ws ++ rest) = IStream.skipws rest.
Proof.
  induction 1 as [| c ws Hc Hws IH]; [reflexivity |].
  cbn [app IStream.skipws]. rewrite Hc. exact IH.
Qed.

Lemma extract_char_colon (uninit : ascii) (ws rest : list ascii) :
  blank ws ->
  IStream.extract_char uninit (IStream.mk (ws ++ ":"%char :: rest) true)
  = (":"%char, IStream.mk rest true).
Proof.
  intros Hws. unfold IStream.extract_char. cbn [IStream.good IStream.buf].
  rewrite skipws_blank by assumption. reflexivity.
Qed.

(** The running checksum after the four header bytes. *)
Lemma header_sum (len hi lo ty : Z) :
  0 <= lo < 256 ->
  uint8 (uint8 (uint8 (uint8 (0 + len) + (256 * hi + lo))
                + Z.shiftr (256 * hi + lo) 8) + ty)
  = uint8 (len + hi + lo + ty).
Proof.
  intros Hlo.
  rewrite Z.shiftr_div_pow2 by lia.
  replace ((256 * hi + lo) / 2 ^ 8) with hi
    by (apply Z.div_unique with lo; lia).
  rewrite (uint8_add_l (0 + len)).
  rewrite (uint8_add_l (0 + len + (256 * hi + lo))).
  rewrite (uint8_add_l (0 + len + (256 * hi + lo) + hi)).
  unfold uint8.
  replace (0 + len + (256 * hi + lo) + hi + ty)
    with (len + hi + lo + ty + hi * 2 ^ 8) by lia.
  apply Z.mod_add. lia.
Qed.

(** The header of a record of well-formed text, as [read_record] sees it. *)
Ltac read_header Hlen Hhi Hlo Hty :=
  unfold read_record;
  rewrite extract_char_colon by assumption;
  cbn [Ascii.eqb Bool.eqb negb andb];
  rewrite <- ?app_assoc;
  rewrite (getUint8_hex2 _ _ _ Hlen);
  rewrite (getUint16_hex2 _ _ _ _ _ Hhi Hlo);
  rewrite (getUint8_hex2 _ _ _ Hty);
  pose proof (hex2_value_range _ _ Hlen);
  pose proof (hex2_value_range _ _ Hhi);
  pose proof (hex2_value_range _ _ Hlo);
  pose proof (hex2_value_range _ _ Hty);
  rewrite (uint8_small (r_length _)) by assumption;
  rewrite (uint8_small (r_type _)) by assumption;
  rewrite uint16_small by lia;
  rewrite header_sum by assumption.

(** A data record of well-formed text: checked, then inserted. *)
Lemma read_record_data (uninit : ascii) (ws txt rest : list ascii)
    (r : hexrecord) (lineCounter baseAddress : Z) (data : ChunkMap.t) :
  blank ws -> is_text txt r ->
  r_type r = 0 -> r_length r = size (r_payload r) ->
  read_record uninit (IStream.mk (ws ++ txt ++ rest) true)
    lineCounter baseAddress data
  = if r_checksum r =? r_expected r
    then Continue (IStream.mk rest true) baseAddress
           (insert_run data (uint32 (r_address r + baseAddress)) (r_payload r))
    else Stop data
           (Thrown (WrongCheckSum lineCounter (r_checksum r) (r_expected r))).
Proof.
  intros Hws Htxt Htype Hlength.
  destruct Htxt as [len hi lo ty ck payload r Hlen Hhi Hlo Hty Hpayload Hck].
  cbn [app].
  read_header Hlen Hhi Hlo Hty.
  rewrite Htype.
  rewrite Hlength. unfold size at 1. rewrite Nat2Z.id.
  rewrite (read_data_hex2 _ _ _ _ Hpayload) by apply uint8_range.
  rewrite (getUint8_hex2 _ _ _ Hck).
  rewrite (uint8_small (r_checksum r)) by apply (hex2_value_range _ _ Hck).
  rewrite uint8_add_l, negate8_spec.
  unfold r_expected, r_sum, r_address.
  rewrite <- Hlength, Htype.
  destruct (r_checksum r =? _); reflexivity.
Qed.

(** An address-extension record of well-formed text and declared length 2:
    checked, then the base address is replaced. *)
Lemma read_record_extended (uninit : ascii) (ws txt rest : list ascii)
    (r : hexrecord) (p0 p1 : Z) (lineCounter baseAddress : Z)
    (data : ChunkMap.t) :
  blank ws -> is_text txt r ->
  r_type r = 2 \/ r_type r = 4 ->
  r_length r = 2 -> r_payload r = [p0; p1] ->
  read_record uninit (IStream.mk (ws ++ txt ++ rest) true)
    lineCounter baseAddress data
  = if r_checksum r =? r_expected r
    then Continue (IStream.mk rest true)
           (uint32 (Z.shiftl (256 * p0 + p1) (if r_type r =? 2 then 4 else 16)))
           data
    else Stop data
           (Thrown (WrongCheckSum lineCounter (r_checksum r) (r_expected r))).
Proof.
  intros Hws Htxt Htype Hlength Hbytes.
  destruct Htxt as [len hi lo ty ck payload r Hlen Hhi Hlo Hty Hpayload Hck].
  rewrite Hbytes in Hpayload.
  inversion Hpayload as [| t0 b0 payload0 bytes0 H0 Hpayload0]; subst.
  inversion Hpayload0 as [| t1 b1 payload1 bytes1 H1 Hpayload1]; subst.
  inversion Hpayload1; subst.
  cbn [app List.concat]. rewrite app_nil_r.
  read_header Hlen Hhi Hlo Hty.
  pose proof (hex2_value_range _ _ H0).
  pose proof (hex2_value_range _ _ H1).
  pose proof (hex2_value_range _ _ Hck).
  assert (Hsum : forall cs,
             negate8 (uint8 (uint8 (uint8 cs + (256 * p0 + p1))
                             + Z.shiftr (256 * p0 + p1) 8))
             = (256 - uint8 (cs + sum [p0; p1])) mod 256).
  { intros cs. rewrite negate8_spec. f_equal. f_equal.
    rewrite Z.shiftr_div_pow2 by lia.
    replace ((256 * p0 + p1) / 2 ^ 8) with p0
      by (apply Z.div_unique with p1; lia).
    rewrite (uint8_add_l cs).
    rewrite (uint8_add_l (cs + (256 * p0 + p1))).
    unfold uint8. cbn [sum fold_right].
    replace (cs + (256 * p0 + p1) + p0) with (cs + (p0 + (p1 + 0)) + p0 * 2 ^ 8)
      by lia.
    apply Z.mod_add. lia. }
  unfold r_expected, r_sum. rewrite Hbytes.
  destruct Htype as [Htype | Htype]; rewrite Htype, Hlength;
    cbn [Z.eqb Pos.eqb negb];
    rewrite (getUint16_hex2 _ _ _ _ _ H0 H1);
    rewrite (getUint8_hex2 _ _ _ Hck);
    rewrite uint16_small by lia;
    rewrite (uint8_small (r_checksum r)) by assumption;
    rewrite Hsum;
    destruct (r_checksum r =? _); reflexivity.
Qed.

(** An address-extension record whose declared length is not 2. *)
Lemma read_record_extended_length (uninit : ascii) (ws txt rest : list ascii)
    (r : hexrecord) (lineCounter baseAddress : Z) (data : ChunkMap.t) :
  blank ws -> is_text txt r ->
  r_type r = 2 \/ r_type r = 4 ->
  r_length r <> 2 ->
  read_record uninit (IStream.mk (ws ++ txt ++ rest) true)
    lineCounter baseAddress data
  = Stop data (Thrown (InvalidRecord lineCounter)).
Proof.
  intros Hws Htxt Htype Hlength.
  destruct Htxt as [len hi lo ty ck payload r Hlen Hhi Hlo Hty Hpayload Hck].
  cbn [app].
  read_header Hlen Hhi Hlo Hty.
  apply Z.eqb_neq in Hlength.
  destruct Htype as [Htype | Htype]; rewrite Htype, Hlength; reflexivity.
Qed.

(** ** The formatter against the lexer *)

(** The two digits the encoder writes for a byte read back as that byte. *)
Lemma hex2_value_hex2 (b : Z) : 0 <= b < 256 -> hex2_value (hex2 b) = Some b.
Proof.
  intros Hb.
  assert (Hall : forallb
                   (fun n => match hex2_value (hex2 (Z.of_nat n)) with
                             | Some v => v =? Z.of_nat n
                             | None => false
                             end) (seq 0 256) = true)
    by (vm_compute; reflexivity).
  rewrite forallb_forall in Hall.
  specialize (Hall (Z.to_nat b)).
  rewrite Z2Nat.id in Hall by lia.
  destruct (hex2_value (hex2 b)) as [v |].
  - f_equal. apply Z.eqb_eq. apply Hall. apply in_seq. lia.
  - discriminate Hall. apply in_seq. lia.
Qed.

Lemma text_of_is_text (r : hexrecord) : bytes_ok r -> is_text (text_of r) r.
Proof.
  intros (Hlen & Hhi & Hlo & Hty & Hpayload & Hck).
  unfold text_of. constructor; try (apply hex2_value_hex2; assumption).
  induction Hpayload as [| b bytes Hb Hbytes IH]; constructor.
  - apply hex2_value_hex2. assumption.
  - exact IH.
Qed.

(** ** Termination of the decoder *)

Lemma get_measure (s : IStream.t) :
  (measure (snd (IStream.get s)) <= measure s)%nat.
Proof.
  destruct s as [[| c rest] [|]]; unfold IStream.get, measure; simpl; lia.
Qed.

Lemma getUint4_measure (s : IStream.t) :
  (measure (snd (getUint4 s)) <= measure s)%nat.
Proof.
  unfold getUint4. pose proof (get_measure s) as H.
  destruct (IStream.get s) as [c s']. exact H.
Qed.

Lemma getUint8_measure (s : IStream.t) :
  (measure (snd (getUint8 s)) <= measure s)%nat.
Proof.
  unfold getUint8. pose proof (getUint4_measure s) as H1.
  destruct (getUint4 s) as [hi s1]. pose proof (getUint4_measure s1) as H2.
  destruct (getUint4 s1) as [lo s2]. simpl in *. lia.
Qed.

Lemma getUint16_measure (s : IStream.t) :
  (measure (snd (getUint16 s)) <= measure s)%nat.
Proof.
  unfold getUint16. pose proof (getUint8_measure s) as H1.
  destruct (getUint8 s) as [hi s1]. pose proof (getUint8_measure s1) as H2.
  destruct (getUint8 s1) as [lo s2]. simpl in *. lia.
Qed.

Lemma read_data_measure (n : nat) (s : IStream.t) (cs : Z) :
  (measure (snd (read_data n s cs)) <= measure s)%nat.
Proof.
  revert s cs. induction n as [| n IH]; intros s cs; [simpl; lia |].
  cbn [read_data]. pose proof (getUint8_measure s) as H1.
  destruct (getUint8 s) as [v s1].
  specialize (IH s1 (uint8 (cs + uint8 v))).
  destruct (read_data n s1 _) as [[bytes cs'] s2]. simpl in *. lia.
Qed.

Lemma skipws_length (l : list ascii) :
  (List.length (IStream.skipws l) <= List.length l)%nat.
Proof.
  induction l as [| c l IH]; simpl; [lia |].
  destruct (IStream.isspace c); simpl; lia.
Qed.

Lemma extract_char_measure (uninit : ascii) (s : IStream.t) :
  IStream.good s = true ->
  (measure (snd (IStream.extract_char uninit s)) < measure s)%nat.
Proof.
  destruct s as [content good]. cbn [IStream.good]. intros ->.
  unfold IStream.extract_char, measure. cbn [IStream.good IStream.buf].
  pose proof (skipws_length content) as H.
  destruct (IStream.skipws content) as [| c rest];
    cbn [snd IStream.good IStream.buf List.length] in *; lia.
Qed.

(** Case analysis on one turn of the loop: the lexer calls are named and
    their effect on [measure] recorded, the tests are split. *)
Ltac turn_cases :=
  repeat match goal with
         | |- context [getUint8 ?s] =>
             let H := fresh "M" in
             pose proof (getUint8_measure s) as H;
             destruct (getUint8 s) as [? ?]; cbn [snd] in H
         | |- context [getUint16 ?s] =>
             let H := fresh "M" in
             pose proof (getUint16_measure s) as H;
             destruct (getUint16 s) as [? ?]; cbn [snd] in H
         | |- context [read_data ?n ?s ?c] =>
             let H := fresh "M" in
             pose proof (read_data_measure n s c) as H;
             destruct (read_data n s c) as [[? ?] ?]; cbn [snd] in H
         | |- context [match ?x with Z0 => _ | Zpos _ => _ | Zneg _ => _ end] =>
             destruct x
         | |- context [match ?x with xH => _ | xO _ => _ | xI _ => _ end] =>
             destruct x
         | |- context [if negb ?b then _ else _] => destruct b; cbn [negb]
         end.

(** A turn that continues has consumed part of the stream. *)
Lemma read_record_measure (uninit : ascii) (ifs ifs' : IStream.t)
    (lineCounter baseAddress baseAddress' : Z) (data data' : ChunkMap.t) :
  IStream.good ifs = true ->
  read_record uninit ifs lineCounter baseAddress data
  = Continue ifs' baseAddress' data' ->
  (measure ifs' < measure ifs)%nat.
Proof.
  intros Hgood. unfold read_record.
  pose proof (extract_char_measure uninit ifs Hgood) as M0.
  destruct (IStream.extract_char uninit ifs) as [c s0]; cbn [snd] in M0.
  turn_cases; intros E; inversion E; subst; lia.
Qed.

(** A turn that stops leaves the member [data] as it found it. *)
Lemma read_record_stop (uninit : ascii) (ifs : IStream.t)
    (lineCounter baseAddress : Z) (data data' : ChunkMap.t) (o : outcome) :
  read_record uninit ifs lineCounter baseAddress data = Stop data' o ->
  data' = data.
Proof.
  unfold read_record.
  destruct (IStream.extract_char uninit ifs) as [c s0].
  turn_cases; intros E; inversion E; subst; reflexivity.
Qed.

(** An exception thrown by a turn carries the line counter of that turn. *)
Lemma read_record_line (uninit : ascii) (ifs : IStream.t)
    (lineCounter baseAddress : Z) (data data' : ChunkMap.t) (e : error) :
  read_record uninit ifs lineCounter baseAddress data = Stop data' (Thrown e) ->
  error_line e = lineCounter.
Proof.
  unfold read_record.
  destruct (IStream.extract_char uninit ifs) as [c s0].
  turn_cases; intros E; inversion E; subst; reflexivity.
Qed.

Lemma read_loop_total (fuel : nat) (uninit : Z -> ascii) (ifs : IStream.t)
    (lineCounter baseAddress : Z) (data : ChunkMap.t) :
  (measure ifs < fuel)%nat ->
  exists data' o,
    read_loop fuel uninit ifs lineCounter baseAddress data = Some (data', o).
Proof.
  revert ifs lineCounter baseAddress data.
  induction fuel as [| fuel IH]; intros ifs lineCounter baseAddress data Hfuel;
    [lia |].
  cbn [read_loop].
  destruct (IStream.good ifs) eqn:Hgood; [| eauto].
  destruct (read_record _ ifs lineCounter baseAddress data)
    as [ifs' baseAddress' data' | data' o] eqn:E; [| eauto].
  apply IH. apply read_record_measure in E; [lia | assumption].
Qed.

(** [read] always ends, by a return or by an exception. *)
Lemma read_total (uninit : Z -> ascii) (content : list ascii)
    (data : ChunkMap.t) :
  exists data' o, read uninit content data = Some (data', o).
Proof.
  unfold read. apply read_loop_total. unfold measure, IStream.open. simpl. lia.
Qed.

(** Fuel beyond what the stream is worth changes nothing. *)
Lemma read_loop_fuel (fuel fuel' : nat) (uninit : Z -> ascii)
    (ifs : IStream.t) (lineCounter baseAddress : Z) (data : ChunkMap.t) :
  (measure ifs < fuel)%nat -> (measure ifs < fuel')%nat ->
  read_loop fuel uninit ifs lineCounter baseAddress data
  = read_loop fuel' uninit ifs lineCounter baseAddress data.
Proof.
  revert fuel' ifs lineCounter baseAddress data.
  induction fuel as [| fuel IH];
    intros [| fuel'] ifs lineCounter baseAddress data H H'; try lia.
  cbn [read_loop].
  destruct (IStream.good ifs) eqn:Hgood; [| reflexivity].
  destruct (read_record _ ifs lineCounter baseAddress data)
    as [ifs' baseAddress' data' | data' o] eqn:E; [| reflexivity].
  apply read_record_measure in E; [| assumption].
  apply IH; lia.
Qed.

(** [read] with any amount of fuel that covers the stream. *)
Lemma read_unfold (n : nat) (uninit : Z -> ascii) (content : list ascii)
    (data : ChunkMap.t) :
  read uninit content data
  = read_loop (S (S (List.length content + n))) uninit (IStream.open content)
      0 0 data.
Proof.
  unfold read. apply read_loop_fuel; unfold measure, IStream.open; simpl; lia.
Qed.

Lemma read_loop_continue (fuel : nat) (uninit : Z -> ascii)
    (content : list ascii) (ifs' : IStream.t)
    (lineCounter baseAddress baseAddress' : Z) (data data' : ChunkMap.t) :
  read_record (uninit lineCounter) (IStream.mk content true) lineCounter
    baseAddress data = Continue ifs' baseAddress' data' ->
  read_loop (S fuel) uninit (IStream.mk content true) lineCounter baseAddress
    data
  = read_loop fuel uninit ifs' (lineCounter + 1) baseAddress' data'.
Proof. intros E. cbn [read_loop IStream.good]. rewrite E. reflexivity. Qed.

Lemma read_loop_stop (fuel : nat) (uninit : Z -> ascii)
    (content : list ascii) (o : outcome)
    (lineCounter baseAddress : Z) (data data' : ChunkMap.t) :
  read_record (uninit lineCounter) (IStream.mk content true) lineCounter
    baseAddress data = Stop data' o ->
  read_loop (S fuel) uninit (IStream.mk content true) lineCounter baseAddress
    data
  = Some (data', o).
Proof. intros E. cbn [read_loop IStream.good]. rewrite E. reflexivity. Qed.

(** ** The end of the stream *)

(** A turn that starts with nothing but white space left: the extraction of
    [c] fails, and what follows depends on the indeterminate value of [c]
    alone.  Either way the turn throws, and not [EarlyEOF]. *)
Lemma read_record_exhausted (uninit : ascii) (ws : list ascii)
    (lineCounter baseAddress : Z) (data : ChunkMap.t) :
  blank ws ->
  read_record uninit (IStream.mk ws true) lineCounter baseAddress data
  = Stop data
      (Thrown (if Ascii.eqb uninit ":"%char
               then UnknownRecordType lineCounter 255
               else InvalidRecord lineCounter)).
Proof.
  intros Hws. unfold read_record, IStream.extract_char.
  cbn [IStream.good IStream.buf].
  rewrite <- (app_nil_r ws), skipws_blank by assumption.
  cbn [IStream.skipws].
  destruct (Ascii.eqb uninit ":"%char); reflexivity.
Qed.

(** ** Checksums *)

(** C4.  For every data record and every address-extension record, the
    decoder goes on to the next record exactly when the trailing checksum byte
    is [(256 - s) mod 256], [s] being the unsigned 8-bit sum of the length
    byte, both address bytes, the type byte and every payload byte; on a
    mismatch it throws [WrongCheckSum] with the line counter, the transmitted
    checksum and the computed one, and the model is as it was. *)
Theorem checksum_decides_acceptance (uninit : ascii)
    (ws txt rest : list ascii) (r : hexrecord)
    (lineCounter baseAddress : Z) (data : ChunkMap.t) :
  blank ws -> is_text txt r -> framed r ->
  let s := uint8 (r_length r + r_address_hi r + r_address_lo r + r_type r
                  + sum (r_payload r)) in
  let computed := (256 - s) mod 256 in
  let result :=
    read_record uninit (IStream.mk (ws ++ txt ++ rest) true)
      lineCounter baseAddress data in
  ((exists baseAddress' data',
       result = Continue (IStream.mk rest true) baseAddress' data')
   <-> r_checksum r = computed)
  /\ (r_checksum r <> computed ->
      result
      = Stop data
          (Thrown (WrongCheckSum lineCounter (r_checksum r) computed))).
Proof.
  intros Hws Htxt Hframed s computed. subst s computed.
  change ((256 - uint8 (r_length r + r_address_hi r + r_address_lo r + r_type r
                        + sum (r_payload r))) mod 256) with (r_expected r).
  set (computed := r_expected r). intros result.
  assert (E : exists baseAddress' data',
             result
             = if r_checksum r =? computed
               then Continue (IStream.mk rest true) baseAddress' data'
               else Stop data
                      (Thrown (WrongCheckSum lineCounter (r_checksum r) computed))).
  { destruct Hframed as [[Htype Hlength] | (Htype & Hlength & Hbytes)].
    - do 2 eexists. apply read_record_data; assumption.
    - destruct (r_payload r) as [| p0 [| p1 [| p2 bytes]]] eqn:Hpayload;
        try discriminate Hbytes.
      do 2 eexists. apply read_record_extended with (p0 := p0) (p1 := p1);
        assumption. }
  destruct E as (baseAddress' & data' & E).
  destruct (Z.eqb_spec (r_checksum r) computed) as [Heq | Hneq].
  - split; [| intros Hneq; contradiction].
    split; [intros _; assumption | intros _; eauto].
  - split; [| intros _; assumption].
    split; [| intros Heq; contradiction].
    intros (b & d & E'). rewrite E in E'. discriminate E'.
Qed.

Lemma sum_app (v w : list Z) : sum (v ++ w) = sum v + sum w.
Proof.
  induction v as [| x v IH]; cbn [app sum fold_right]; [reflexivity |].
  fold (sum (v ++ w)). fold (sum v). lia.
Qed.

(** Two sums that differ in one byte differ in their low eight bits. *)
Lemma uint8_add_differs (base x y : Z) :
  0 <= x < 256 -> 0 <= y < 256 -> x <> y ->
  (256 - uint8 (base + x)) mod 256 <> (256 - uint8 (base + y)) mod 256.
Proof.
  intros Hx Hy Hxy. unfold uint8.
  pose proof (Z.div_mod (base + x) (2 ^ 8) ltac:(lia)) as Dx.
  pose proof (Z.div_mod (base + y) (2 ^ 8) ltac:(lia)) as Dy.
  pose proof (Z.mod_pos_bound (base + x) (2 ^ 8) ltac:(lia)) as Bx.
  pose proof (Z.mod_pos_bound (base + y) (2 ^ 8) ltac:(lia)) as By.
  set (mx := (base + x) mod 2 ^ 8) in *.
  set (my := (base + y) mod 2 ^ 8) in *.
  assert (Hm : mx <> my) by lia.
  pose proof (Z.div_mod (256 - mx) 256 ltac:(lia)) as Ex.
  pose proof (Z.div_mod (256 - my) 256 ltac:(lia)) as Ey.
  pose proof (Z.mod_pos_bound (256 - mx) 256 ltac:(lia)) as Cx.
  pose proof (Z.mod_pos_bound (256 - my) 256 ltac:(lia)) as Cy.
  lia.
Qed.

Lemma changed_sum (r r' : hexrecord) :
  bytes_ok r -> bytes_ok r' -> changed r r' -> r_expected r <> r_expected r'.
Proof.
  intros (_ & Hhi & Hlo & _ & Hpayload & _) (_ & Hhi' & Hlo' & _ & Hpayload' & _)
    Hchanged.
  unfold r_expected, r_sum.
  destruct Hchanged as [b Hb | b Hb | before after old b Hold Hb];
    cbn [r_length r_address_hi r_address_lo r_type r_payload r_checksum] in *.
  - replace (r_length r + r_address_hi r + r_address_lo r + r_type r
             + sum (r_payload r))
      with (r_length r + r_address_lo r + r_type r + sum (r_payload r)
            + r_address_hi r) by lia.
    replace (r_length r + b + r_address_lo r + r_type r + sum (r_payload r))
      with (r_length r + r_address_lo r + r_type r + sum (r_payload r) + b)
      by lia.
    apply uint8_add_differs; auto.
  - replace (r_length r + r_address_hi r + r_address_lo r + r_type r
             + sum (r_payload r))
      with (r_length r + r_address_hi r + r_type r + sum (r_payload r)
            + r_address_lo r) by lia.
    replace (r_length r + r_address_hi r + b + r_type r + sum (r_payload r))
      with (r_length r + r_address_hi r + r_type r + sum (r_payload r) + b)
      by lia.
    apply uint8_add_differs; auto.
  - rewrite Hold in *. rewrite !sum_app. cbn [sum fold_right].
    fold (sum after).
    apply Forall_elt in Hpayload, Hpayload'.
    replace (r_length r + r_address_hi r + r_address_lo r + r_type r
             + (sum before + (old + sum after)))
      with (r_length r + r_address_hi r + r_address_lo r + r_type r
            + sum before + sum after + old) by lia.
    replace (r_length r + r_address_hi r + r_address_lo r + r_type r
             + (sum before + (b + sum after)))
      with (r_length r + r_address_hi r + r_address_lo r + r_type r
            + sum before + sum after + b) by lia.
    apply uint8_add_differs; auto.
Qed.

Lemma is_text_bytes_ok (txt : list ascii) (r : hexrecord) :
  is_text txt r -> bytes_ok r.
Proof.
  intros [len hi lo ty ck payload r0 Hlen Hhi Hlo Hty Hpayload Hck].
  repeat split; try (eapply hex2_value_range; eassumption).
  induction Hpayload as [| t b ts bs Hb Hrest IH]; constructor.
  - eapply hex2_value_range; eassumption.
  - exact IH.
Qed.

(** The lexer does not check that a character is a hexadecimal digit, and a
    digit out of range can stand for the same byte: [g] is read as 16, so
    that [g0] is the byte [00] again.  The bytes of a record, not the
    characters of its text, are what the checksum guards. *)
Lemma digit_out_of_range_same_byte :
  forall uninit : Z -> ascii,
    read uninit (list_ascii_of_string ":0100000000FF" ++ newline ++ eof_text)
      ChunkMap.empty
    = Some ([(0, [0])], Returned)
    /\ read uninit
         (list_ascii_of_string ":01000000g0FF" ++ newline ++ eof_text)
         ChunkMap.empty
       = Some ([(0, [0])], Returned).
Proof. intros uninit. split; vm_compute; reflexivity. Qed.

(** C5.  Take a well-formed data record (its declared length is the length of
    its payload and its checksum is the one the format asks for) and change
    one byte of its address field or of its payload to a different value,
    leaving the checksum byte as it was.  The decoder, reaching the text of
    the changed record at any point of a decode, throws [WrongCheckSum] for
    that record. *)
Theorem checksum_detects_changed_byte (uninit : Z -> ascii) (fuel : nat)
    (ws txt txt' rest : list ascii) (r r' : hexrecord)
    (lineCounter baseAddress : Z) (data : ChunkMap.t) :
  blank ws ->
  is_text txt r -> r_type r = 0 -> r_length r = size (r_payload r) ->
  r_checksum r = r_expected r ->
  changed r r' -> is_text txt' r' ->
  read_loop (S fuel) uninit (IStream.mk (ws ++ txt' ++ rest) true)
    lineCounter baseAddress data
  = Some (data,
          Thrown (WrongCheckSum lineCounter (r_checksum r) (r_expected r'))).
Proof.
  intros Hws Htxt Htype Hlength Hck Hchanged Htxt'.
  pose proof (changed_sum r r' (is_text_bytes_ok _ _ Htxt)
                (is_text_bytes_ok _ _ Htxt') Hchanged) as Hsum.
  assert (Hsame : r_type r' = 0 /\ r_length r' = size (r_payload r')
                  /\ r_checksum r' = r_checksum r).
  { destruct Hchanged as [b Hb | b Hb | before after old b Hold Hb];
      cbn [r_length r_type r_payload r_checksum]; repeat split; auto.
    rewrite Hlength, Hold, !size_app. unfold size. cbn [List.length]. lia. }
  destruct Hsame as (Htype' & Hlength' & Hck').
  apply read_loop_stop.
  rewrite (read_record_data _ _ _ _ r') by assumption.
  rewrite Hck'.
  destruct (Z.eqb_spec (r_checksum r) (r_expected r')) as [Heq | Hneq].
  - exfalso. apply Hsum. rewrite <- Hck. exact Heq.
  - reflexivity.
Qed.

(** ** Records of a given content *)

Lemma sealed_ok (len hi lo ty : Z) (payload : list Z) :
  0 <= len < 256 -> 0 <= hi < 256 -> 0 <= lo < 256 -> 0 <= ty < 256 ->
  bytes payload ->
  bytes_ok (sealed len hi lo ty payload).
Proof.
  intros. unfold bytes_ok, sealed.
  cbn [r_length r_address_hi r_address_lo r_type r_payload r_checksum].
  repeat split; try lia; try assumption;
    unfold r_expected; apply Z.mod_pos_bound; lia.
Qed.

Lemma data_record_ok (address : Z) (payload : list Z) :
  0 <= address < 65536 -> bytes payload -> size payload < 256 ->
  bytes_ok (data_record address payload).
Proof.
  intros Ha Hp Hs. apply sealed_ok; try assumption.
  - pose proof (size_nonneg payload). lia.
  - split; [apply Z.div_pos; lia | apply Z.div_lt_upper_bound; lia].
  - apply Z.mod_pos_bound. lia.
  - lia.
Qed.

Lemma value_bytes (value : Z) :
  0 <= value < 65536 -> bytes [value / 256; value mod 256].
Proof.
  intros Hv. repeat constructor.
  - apply Z.div_pos; lia.
  - apply Z.div_lt_upper_bound; lia.
  - apply Z.mod_pos_bound; lia.
  - apply Z.mod_pos_bound; lia.
Qed.

Lemma join_bytes (value : Z) : 256 * (value / 256) + value mod 256 = value.
Proof. symmetry. apply Z.div_mod. lia. Qed.

(** The turn of the loop on the text of a data record. *)
Lemma read_record_data_record (uninit : ascii) (ws rest : list ascii)
    (address : Z) (payload : list Z) (lineCounter baseAddress : Z)
    (data : ChunkMap.t) :
  blank ws -> 0 <= address < 65536 -> bytes payload -> size payload < 256 ->
  read_record uninit
    (IStream.mk (ws ++ text_of (data_record address payload) ++ rest) true)
    lineCounter baseAddress data
  = Continue (IStream.mk rest true) baseAddress
      (insert_run data (uint32 (address + baseAddress)) payload).
Proof.
  intros Hws Ha Hp Hs.
  rewrite (read_record_data _ _ _ _ (data_record address payload));
    try assumption; try reflexivity.
  - change (r_checksum (data_record address payload))
      with (r_expected (data_record address payload)).
    rewrite Z.eqb_refl. unfold r_address.
    cbn [data_record sealed r_address_hi r_address_lo r_payload].
    rewrite join_bytes. reflexivity.
  - apply text_of_is_text, data_record_ok; assumption.
Qed.

(** The turn of the loop on the text of an address-extension record. *)
Lemma read_record_segment_record (uninit : ascii) (ws rest : list ascii)
    (value : Z) (lineCounter baseAddress : Z) (data : ChunkMap.t) :
  blank ws -> 0 <= value < 65536 ->
  read_record uninit
    (IStream.mk (ws ++ text_of (segment_record value) ++ rest) true)
    lineCounter baseAddress data
  = Continue (IStream.mk rest true) (Z.shiftl value 4) data.
Proof.
  intros Hws Hv.
  rewrite (read_record_extended _ _ _ _ (segment_record value)
             (value / 256) (value mod 256));
    try assumption; try reflexivity; try (left; reflexivity).
  - change (r_checksum (segment_record value))
      with (r_expected (segment_record value)).
    rewrite Z.eqb_refl, join_bytes.
    cbn [segment_record sealed r_type Z.eqb Pos.eqb].
    rewrite uint32_small; [reflexivity |].
    rewrite Z.shiftl_mul_pow2 by lia. lia.
  - apply text_of_is_text, sealed_ok; try lia. apply value_bytes. assumption.
Qed.

Lemma read_record_linear_record (uninit : ascii) (ws rest : list ascii)
    (value : Z) (lineCounter baseAddress : Z) (data : ChunkMap.t) :
  blank ws -> 0 <= value < 65536 ->
  read_record uninit
    (IStream.mk (ws ++ text_of (linear_record value) ++ rest) true)
    lineCounter baseAddress data
  = Continue (IStream.mk rest true) (Z.shiftl value 16) data.
Proof.
  intros Hws Hv.
  rewrite (read_record_extended _ _ _ _ (linear_record value)
             (value / 256) (value mod 256));
    try assumption; try reflexivity; try (right; reflexivity).
  - change (r_checksum (linear_record value))
      with (r_expected (linear_record value)).
    rewrite Z.eqb_refl, join_bytes.
    cbn [linear_record sealed r_type Z.eqb Pos.eqb].
    rewrite uint32_small; [reflexivity |].
    rewrite Z.shiftl_mul_pow2 by lia. lia.
  - apply text_of_is_text, sealed_ok; try lia. apply value_bytes. assumption.
Qed.

Lemma blank_nil : blank [].
Proof. constructor. Qed.

Lemma blank_newline : blank newline.
Proof. repeat constructor. Qed.

(** The end-of-file record ends the decode, whatever follows it. *)
Lemma read_record_eof (uninit : ascii) (rest : list ascii)
    (lineCounter baseAddress : Z) (data : ChunkMap.t) :
  read_record uninit (IStream.mk (newline ++ eof_text ++ rest) true)
    lineCounter baseAddress data
  = Stop data Returned.
Proof. reflexivity. Qed.

(** ** Coalescing of two records *)

(** C6.  Two data records of sixteen bytes each, for [0x100,0x110) and for
    [0x110,0x120), followed by the end-of-file record.  Decoded in that order
    they give the one chunk [0x100 -> d1 ++ d2].  Decoded in the other order
    they give one chunk as well, but under the key [0x110]: the head fusion
    puts [d1] in front of [d2] and leaves the chunk where it was, so that the
    model covers [0x110,0x130) and holds nothing at [0x100]. *)
Theorem coalescing_of_two_records (uninit : Z -> ascii) (d1 d2 : list Z) :
  bytes d1 -> bytes d2 -> size d1 = 16 -> size d2 = 16 ->
  read uninit
    (text_of (data_record 256 d1) ++ newline
     ++ text_of (data_record 272 d2) ++ newline ++ eof_text)
    ChunkMap.empty
  = Some ([(256, d1 ++ d2)], Returned)
  /\ read uninit
       (text_of (data_record 272 d2) ++ newline
        ++ text_of (data_record 256 d1) ++ newline ++ eof_text)
       ChunkMap.empty
     = Some ([(272, d1 ++ d2)], Returned)
  /\ ChunkMap.byte_at [(272, d1 ++ d2)] 256 = None.
Proof.
  intros H1 H2 S1 S2. split; [| split].
  - rewrite (read_unfold 1), Nat.add_1_r. unfold IStream.open.
    erewrite read_loop_continue;
      [| apply (read_record_data_record _ []);
         [apply blank_nil | lia | assumption | lia]].
    erewrite read_loop_continue;
      [| apply read_record_data_record;
         [apply blank_newline | lia | assumption | lia]].
    erewrite read_loop_stop;
      [| rewrite <- (app_nil_r eof_text); apply read_record_eof].
    unfold ChunkMap.empty, insert_run. cbn [fuse ChunkMap.assign].
    rewrite S1. reflexivity.
  - rewrite (read_unfold 1), Nat.add_1_r. unfold IStream.open.
    erewrite read_loop_continue;
      [| apply (read_record_data_record _ []);
         [apply blank_nil | lia | assumption | lia]].
    erewrite read_loop_continue;
      [| apply read_record_data_record;
         [apply blank_newline | lia | assumption | lia]].
    erewrite read_loop_stop;
      [| rewrite <- (app_nil_r eof_text); apply read_record_eof].
    unfold ChunkMap.empty, insert_run. cbn [fuse ChunkMap.assign].
    rewrite S1, S2. reflexivity.
  - reflexivity.
Qed.

(** ** A stream without an end-of-file record *)

Lemma read_record_accepted (uninit : ascii) (ws rest : list ascii)
    (r : hexrecord) (lineCounter baseAddress : Z) (data : ChunkMap.t) :
  blank ws -> accepted r ->
  exists baseAddress' data',
    read_record uninit (IStream.mk (ws ++ text_of r ++ rest) true)
      lineCounter baseAddress data
    = Continue (IStream.mk rest true) baseAddress' data'.
Proof.
  intros Hws (Hok & Hframed & Hck).
  pose proof (text_of_is_text r Hok) as Htxt.
  destruct Hframed as [[Htype Hlength] | (Htype & Hlength & Hbytes)].
  - do 2 eexists. rewrite (read_record_data _ _ _ _ r) by assumption.
    rewrite Hck, Z.eqb_refl. reflexivity.
  - destruct (r_payload r) as [| p0 [| p1 [| p2 payload]]] eqn:Hpayload;
      try discriminate Hbytes.
    do 2 eexists.
    rewrite (read_record_extended _ _ _ _ r p0 p1) by assumption.
    rewrite Hck, Z.eqb_refl. reflexivity.
Qed.

Lemma text_of_length (r : hexrecord) :
  (0 < List.length (text_of r))%nat.
Proof. unfold text_of. cbn [List.length]. lia. Qed.

Lemma read_loop_layout (rs : list (hexrecord * list ascii)) :
  forall (uninit : Z -> ascii) (fuel : nat) (ws : list ascii)
         (lineCounter baseAddress : Z) (data : ChunkMap.t),
    blank ws -> well_formed rs ->
    (measure (IStream.mk (ws ++ layout rs) true) < fuel)%nat ->
    exists data',
      read_loop fuel uninit (IStream.mk (ws ++ layout rs) true)
        lineCounter baseAddress data
      = Some (data',
              Thrown (exhausted
                        (uninit (lineCounter + Z.of_nat (List.length rs)))
                        (lineCounter + Z.of_nat (List.length rs)))).
Proof.
  induction rs as [| [r ws1] rs IH];
    intros uninit fuel ws lineCounter baseAddress data Hws Hrs Hfuel;
    (destruct fuel as [| fuel]; [lia |]).
  - cbn [layout List.length Z.of_nat]. rewrite app_nil_r, Z.add_0_r.
    exists data. apply read_loop_stop.
    apply read_record_exhausted. assumption.
  - inversion Hrs as [| item rs0 [Hr Hws1] Hrs']; subst.
    cbn [fst snd] in Hr, Hws1. cbn [layout].
    destruct (read_record_accepted (uninit lineCounter) ws
                (ws1 ++ layout rs) r lineCounter baseAddress data Hws Hr)
      as (baseAddress' & data' & E).
    rewrite (read_loop_continue _ _ _ _ _ _ _ _ _ E).
    destruct (IH uninit fuel ws1 (lineCounter + 1) baseAddress' data'
                Hws1 Hrs') as (data'' & E').
    + unfold measure in *. cbn [IStream.good IStream.buf] in *.
      cbn [layout] in Hfuel. rewrite !length_app in Hfuel.
      rewrite length_app.
      pose proof (text_of_length r). lia.
    + exists data''. rewrite E'. cbn [List.length].
      rewrite Nat2Z.inj_succ.
      replace (lineCounter + Z.succ (Z.of_nat (List.length rs)))
        with (lineCounter + 1 + Z.of_nat (List.length rs)) by lia.
      reflexivity.
Qed.

(** The throw after the loop is reached when the stream ends inside a record
    and the record passes all the same: the checksum byte missing from
    [:0100000000] is read as [0xFF], which is the checksum of the record. *)
Lemma early_eof_inside_record :
  forall uninit : Z -> ascii,
    read uninit (list_ascii_of_string ":0100000000") ChunkMap.empty
    = Some ([(0, [0])], Thrown (EarlyEOF 1)).
Proof. intros uninit. vm_compute. reflexivity. Qed.

(** C8.  A file of well-formed records none of which is an end-of-file
    record, read to exhaustion: [read] does throw, with the number of records
    as line count, but never [EarlyEOF].  The stream is still good after the
    last record, so the loop is entered once more; the extraction of the
    colon fails, and the test of the uninitialised [c] makes the throw an
    [InvalidRecord], or an [UnknownRecordType] of type [0xFF] should the
    stale [c] hold a colon. *)
Theorem exhaustion_is_not_early_eof (uninit : Z -> ascii)
    (rs : list (hexrecord * list ascii)) (data : ChunkMap.t) :
  well_formed rs ->
  exists data' e,
    read uninit (layout rs) data = Some (data', Thrown e)
    /\ e = exhausted (uninit (Z.of_nat (List.length rs)))
             (Z.of_nat (List.length rs))
    /\ error_line e = Z.of_nat (List.length rs)
    /\ forall line, e <> EarlyEOF line.
Proof.
  intros Hrs.
  destruct (read_loop_layout rs uninit (List.length (layout rs) + 2) []
              0 0 data blank_nil Hrs) as (data' & E).
  - unfold measure. cbn [app IStream.good IStream.buf]. lia.
  - exists data'. eexists. split; [exact E |]. split; [reflexivity |].
    unfold exhausted.
    destruct (Ascii.eqb _ _); (split; [reflexivity | discriminate]).
Qed.

(** ** What a failed decode leaves behind *)

Lemma read_loop_thrown (fuel : nat) :
  forall (uninit : Z -> ascii) (ifs : IStream.t) (lineCounter baseAddress : Z)
         (data data' : ChunkMap.t) (e : error),
    read_loop fuel uninit ifs lineCounter baseAddress data
    = Some (data', Thrown e) ->
    exists (n : nat) (ifs' : IStream.t) (baseAddress' : Z),
      accept n uninit ifs lineCounter baseAddress data
      = Some (ifs', baseAddress', data')
      /\ error_line e = lineCounter + Z.of_nat n
      /\ (IStream.good ifs' = false /\ e = EarlyEOF (error_line e)
          \/ IStream.good ifs' = true
             /\ read_record (uninit (error_line e)) ifs' (error_line e)
                  baseAddress' data'
                = Stop data' (Thrown e)).
Proof.
  induction fuel as [| fuel IH];
    intros uninit ifs lineCounter baseAddress data data' e E;
    [discriminate E |].
  cbn [read_loop] in E.
  destruct (IStream.good ifs) eqn:Hgood.
  - destruct (read_record (uninit lineCounter) ifs lineCounter baseAddress data)
      as [ifs1 baseAddress1 data1 | data1 o] eqn:Eturn.
    + destruct (IH _ _ _ _ _ _ _ E) as (n & ifs' & baseAddress' & Ea & El & Ee).
      exists (S n), ifs', baseAddress'.
      cbn [accept]. rewrite Hgood, Eturn.
      split; [exact Ea |]. split; [lia | exact Ee].
    + injection E as -> ->.
      pose proof (read_record_stop _ _ _ _ _ _ _ Eturn) as ->.
      pose proof (read_record_line _ _ _ _ _ _ _ Eturn) as El.
      exists O, ifs, baseAddress. cbn [accept Z.of_nat].
      split; [reflexivity |]. split; [lia |].
      right. rewrite El. split; assumption.
  - injection E as -> <-.
    exists O, ifs, baseAddress. cbn [accept Z.of_nat error_line].
    split; [reflexivity |]. split; [lia |]. left. split; [assumption | reflexivity].
Qed.

(** C9, as the code has it.  When [read] throws, the exception carries the
    number [n] of records accepted before it, the member [data] holds what
    those [n] records made of it, and the turn that throws changes nothing
    more: the decode stops there.  Only when no record was accepted ([n = 0])
    is the model the one of before the call. *)
Theorem failed_decode_keeps_accepted_records (uninit : Z -> ascii)
    (content : list ascii) (data data' : ChunkMap.t) (e : error) :
  read uninit content data = Some (data', Thrown e) ->
  0 <= error_line e
  /\ (exists ifs' baseAddress',
         accept (Z.to_nat (error_line e)) uninit (IStream.open content) 0 0 data
         = Some (ifs', baseAddress', data')
         /\ (IStream.good ifs' = false /\ e = EarlyEOF (error_line e)
             \/ IStream.good ifs' = true
                /\ read_record (uninit (error_line e)) ifs' (error_line e)
                     baseAddress' data'
                   = Stop data' (Thrown e)))
  /\ (error_line e = 0 -> data' = data).
Proof.
  intros E. unfold read in E.
  destruct (read_loop_thrown _ _ _ _ _ _ _ _ E)
    as (n & ifs' & baseAddress' & Ea & El & Ee).
  split; [lia |]. split.
  - exists ifs', baseAddress'.
    replace (Z.to_nat (error_line e)) with n by lia. split; assumption.
  - intros H0. rewrite H0 in El. destruct n as [| n]; [| lia].
    cbn [accept] in Ea. congruence.
Qed.

(** An accepted data record followed by a line that does not start with a
    colon: the decode fails at line 1 and the chunk of the record stays. *)
Lemma failed_decode_changes_model :
  ~ (forall (uninit : Z -> ascii) (content : list ascii)
            (data data' : ChunkMap.t) (e : error),
        read uninit content data = Some (data', Thrown e) -> data' = data).
Proof.
  intros H.
  specialize (H (fun _ => "x"%char)
                (list_ascii_of_string ":0100000000FF" ++ newline
                 ++ list_ascii_of_string "oops")
                ChunkMap.empty [(0, [0])] (InvalidRecord 1) eq_refl).
  discriminate H.
Qed.

(** ** The chunks after an insertion *)

Lemma fuse_none (m : ChunkMap.t) (address : Z) (recordData : list Z) :
  fuse m address recordData = None ->
  forall a b, In (a, b) m ->
    address <> size_t (a + size b)
    /\ size_t (address + size recordData) <> a.
Proof.
  induction m as [| [first second] rest IH]; intros E a b Hin;
    [contradiction |].
  cbn [fuse] in E.
  destruct (Z.eqb_spec address (size_t (first + size second))); [discriminate |].
  destruct (Z.eqb_spec (size_t (address + size recordData)) first);
    [discriminate |].
  destruct (fuse rest address recordData); [discriminate |].
  destruct Hin as [Heq | Hin].
  - injection Heq as <- <-. split; assumption.
  - apply IH; [reflexivity | assumption].
Qed.

Lemma fuse_some (m m' : ChunkMap.t) (address : Z) (recordData : list Z) :
  fuse m address recordData = Some m' ->
  forall x, In x m' ->
    In x m
    \/ (exists a b, In (a, b) m /\ x = (a, b ++ recordData)
                    /\ address = size_t (a + size b))
    \/ (exists a b, In (a, b) m /\ x = (a, recordData ++ b)
                    /\ address <> size_t (a + size b)
                    /\ size_t (address + size recordData) = a).
Proof.
  revert m'. induction m as [| [first second] rest IH]; intros m' E x Hin;
    [discriminate |].
  cbn [fuse] in E.
  destruct (Z.eqb_spec address (size_t (first + size second))) as [Ht | Ht].
  { injection E as <-. destruct Hin as [<- | Hin].
    - right. left. exists first, second. repeat split; [left |]; auto.
    - left. right. assumption. }
  destruct (Z.eqb_spec (size_t (address + size recordData)) first) as [Hh | Hh].
  { injection E as <-. destruct Hin as [<- | Hin].
    - right. right. exists first, second. repeat split; [left | |]; auto.
    - left. right. assumption. }
  destruct (fuse rest address recordData) as [rest' |] eqn:Erest;
    [| discriminate].
  injection E as <-. destruct Hin as [<- | Hin].
  - left. left. reflexivity.
  - destruct (IH rest' eq_refl x Hin)
      as [H | [(a & b & H & Hx & Ha) | (a & b & H & Hx & Ha & Hb)]].
    + left. right. assumption.
    + right. left. exists a, b. repeat split; [right |..]; assumption.
    + right. right. exists a, b. repeat split; [right |..]; assumption.
Qed.

Lemma assign_in (m : ChunkMap.t) (k : Z) (v : list Z) (x : Z * list Z) :
  In x (ChunkMap.assign m k v) -> x = (k, v) \/ In x m.
Proof.
  induction m as [| [k' v'] rest IH]; cbn [ChunkMap.assign].
  - intros [<- | []]. left. reflexivity.
  - destruct (k <? k'); [| destruct (k =? k')].
    + intros [<- | H]; [left; reflexivity | right; exact H].
    + intros [<- | H]; [left; reflexivity | right; right; exact H].
    + intros [<- | H]; [right; left; reflexivity |].
      destruct (IH H) as [-> | H']; [left; reflexivity | right; right; exact H'].
Qed.

(** A run that bridges two chunks fuses with the first one only: three
    one-byte records, for the addresses 0, 2 and then 1, leave the chunks
    [0 -> 2 bytes] and [2 -> 1 byte], which touch. *)
Lemma bridging_run_leaves_touching_chunks :
  ~ (forall (uninit : Z -> ascii) (content : list ascii) (data : ChunkMap.t)
            (o : outcome),
        read uninit content ChunkMap.empty = Some (data, o) -> separated data).
Proof.
  intros H.
  specialize (H (fun _ => "x"%char)
                (list_ascii_of_string ":0100000011EE" ++ newline
                 ++ list_ascii_of_string ":0100020033CA" ++ newline
                 ++ list_ascii_of_string ":0100010022DC" ++ newline
                 ++ eof_text)
                [(0, [17; 34]); (2, [51])] Returned eq_refl).
  specialize (H 0 [17; 34] 2 [51] (or_introl eq_refl)
                (or_intror (or_introl eq_refl)) eq_refl).
  discriminate H.
Qed.

(** ** A record for the start address of a chunk *)

Lemma ok_tail (c : Z * list Z) (m : ChunkMap.t) :
  ChunkMap.ok (c :: m) -> ChunkMap.ok m.
Proof. destruct c as [k v]. cbn [ChunkMap.ok]. intros [_ H]. exact H. Qed.

Lemma ok_keys (k : Z) (v : list Z) (m : ChunkMap.t) :
  ChunkMap.ok ((k, v) :: m) -> forall c, In c m -> k < fst c.
Proof.
  revert k v. induction m as [| [k' v'] rest IH]; intros k v Hok c Hin;
    [contradiction |].
  destruct Hok as [Hlt Hok].
  destruct Hin as [<- | Hin]; [exact Hlt |].
  apply Z.lt_trans with k'; [exact Hlt |].
  apply (IH k' v' Hok c Hin).
Qed.

Lemma find_in (m : ChunkMap.t) (k : Z) (v : list Z) :
  ChunkMap.find m k = Some v -> In (k, v) m.
Proof.
  induction m as [| [k' v'] rest IH]; cbn [ChunkMap.find]; [discriminate |].
  destruct (Z.eqb_spec k k') as [-> | Hne].
  - intros E. injection E as ->. left. reflexivity.
  - intros E. right. apply IH. exact E.
Qed.

Lemma replaced_absent (m : ChunkMap.t) (k : Z) (v : list Z) :
  (forall c, In c m -> fst c <> k) -> replaced m k v = m.
Proof.
  induction m as [| c rest IH]; intros H; [reflexivity |].
  cbn [replaced map]. fold (replaced rest k v).
  rewrite IH by (intros c' Hc'; apply H; right; exact Hc').
  destruct (Z.eqb_spec (fst c) k) as [Heq | _]; [| reflexivity].
  exfalso. apply (H c); [left; reflexivity | exact Heq].
Qed.

Lemma assign_present (m : ChunkMap.t) (k : Z) (v old : list Z) :
  ChunkMap.ok m -> ChunkMap.find m k = Some old ->
  ChunkMap.assign m k v = replaced m k v.
Proof.
  induction m as [| [k' v'] rest IH]; intros Hok Hfind; [discriminate |].
  cbn [ChunkMap.assign ChunkMap.find replaced map fst] in *.
  fold (replaced rest k v).
  pose proof (ok_keys _ _ _ Hok) as Hkeys.
  destruct (Z.eqb_spec k k') as [-> | Hne].
  - rewrite Z.ltb_irrefl, Z.eqb_refl.
    rewrite replaced_absent; [reflexivity |].
    intros c Hc. specialize (Hkeys c Hc). lia.
  - apply find_in in Hfind as Hin. specialize (Hkeys _ Hin). cbn [fst] in Hkeys.
    destruct (Z.ltb_spec k k'); [lia |].
    destruct (Z.eqb_spec k' k); [lia |].
    f_equal. apply IH; [exact (ok_tail _ _ Hok) | exact Hfind].
Qed.

Lemma find_replaced (m : ChunkMap.t) (k : Z) (v old : list Z) :
  ChunkMap.find m k = Some old -> ChunkMap.find (replaced m k v) k = Some v.
Proof.
  induction m as [| [k' v'] rest IH]; cbn [ChunkMap.find replaced map fst];
    [discriminate |].
  fold (replaced rest k v).
  destruct (Z.eqb_spec k k') as [-> | Hne].
  - intros _. rewrite Z.eqb_refl. cbn [ChunkMap.find]. rewrite Z.eqb_refl.
    reflexivity.
  - intros E. destruct (Z.eqb_spec k' k); [lia |].
    cbn [ChunkMap.find]. destruct (Z.eqb_spec k k'); [lia |]. apply IH. exact E.
Qed.

(** The keys of the model stay strictly ascending through an insertion. *)
Lemma ok_cons (k : Z) (v : list Z) (m : ChunkMap.t) :
  (forall c, In c m -> k < fst c) -> ChunkMap.ok m -> ChunkMap.ok ((k, v) :: m).
Proof.
  intros Habove Hok. cbn [ChunkMap.ok]. split; [| exact Hok].
  destruct m as [| [k' v'] rest]; [exact I |].
  apply (Habove (k', v')). left. reflexivity.
Qed.

Lemma assign_ok (m : ChunkMap.t) (k : Z) (v : list Z) :
  ChunkMap.ok m -> ChunkMap.ok (ChunkMap.assign m k v).
Proof.
  induction m as [| [k' v'] rest IH]; intros Hok; cbn [ChunkMap.assign].
  - cbn [ChunkMap.ok]. split; exact I.
  - pose proof (ok_keys _ _ _ Hok) as Hkeys.
    destruct (Z.ltb_spec k k') as [Hlt | Hge];
      [| destruct (Z.eqb_spec k k') as [-> | Hne]].
    + apply ok_cons; [| exact Hok].
      intros c [<- | Hc]; [exact Hlt |].
      specialize (Hkeys c Hc). lia.
    + apply ok_cons; [exact Hkeys | exact (ok_tail _ _ Hok)].
    + apply ok_cons; [| exact (IH (ok_tail _ _ Hok))].
      intros c Hc. destruct (assign_in _ _ _ _ Hc) as [-> | Hc'].
      * cbn [fst]. lia.
      * exact (Hkeys c Hc').
Qed.

Lemma fuse_keys (m m' : ChunkMap.t) (address : Z) (recordData : list Z) :
  fuse m address recordData = Some m' -> map fst m' = map fst m.
Proof.
  revert m'. induction m as [| [first second] rest IH]; intros m' E;
    [discriminate |].
  cbn [fuse] in E.
  destruct (address =? size_t (first + size second));
    [injection E as <-; reflexivity |].
  destruct (size_t (address + size recordData) =? first);
    [injection E as <-; reflexivity |].
  destruct (fuse rest address recordData) as [rest' |]; [| discriminate].
  injection E as <-. cbn [map fst]. f_equal. apply IH. reflexivity.
Qed.

Lemma ok_same_keys (m m' : ChunkMap.t) :
  map fst m' = map fst m -> ChunkMap.ok m -> ChunkMap.ok m'.
Proof.
  revert m'. induction m as [| [k v] rest IH]; intros [| [k' v'] rest'] E Hok;
    try discriminate E; [exact I |].
  cbn [map fst] in E. injection E as -> Erest.
  destruct Hok as [Hhead Hok]. cbn [ChunkMap.ok].
  split; [| exact (IH _ Erest Hok)].
  destruct rest as [| [k1 v1] rest1], rest' as [| [k1' v1'] rest1'];
    try discriminate Erest; [exact I |].
  cbn [map fst] in Erest. injection Erest as -> _. exact Hhead.
Qed.

Lemma insert_run_ok (data : ChunkMap.t) (address : Z) (recordData : list Z) :
  ChunkMap.ok data -> ChunkMap.ok (insert_run data address recordData).
Proof.
  intros Hok. unfold insert_run.
  destruct (fuse data address recordData) as [data' |] eqn:E.
  - exact (ok_same_keys _ _ (fuse_keys _ _ _ _ E) Hok).
  - exact (assign_ok _ _ _ Hok).
Qed.

Lemma read_record_ok (uninit : ascii) (ifs ifs' : IStream.t)
    (lineCounter baseAddress baseAddress' : Z) (data data' : ChunkMap.t) :
  ChunkMap.ok data ->
  read_record uninit ifs lineCounter baseAddress data
  = Continue ifs' baseAddress' data' ->
  ChunkMap.ok data'.
Proof.
  intros Hok. unfold read_record.
  destruct (IStream.extract_char uninit ifs) as [c s0].
  turn_cases; intros E; inversion E; subst;
    (exact Hok || apply insert_run_ok; exact Hok).
Qed.

(** Whatever [read] leaves in the member [data] has its keys ascending. *)
Lemma read_ok (uninit : Z -> ascii) (content : list ascii)
    (data data' : ChunkMap.t) (o : outcome) :
  ChunkMap.ok data ->
  read uninit content data = Some (data', o) -> ChunkMap.ok data'.
Proof.
  unfold read. generalize (List.length content + 2)%nat as fuel.
  generalize (IStream.open content) as ifs. generalize 0 at 1 as lineCounter.
  generalize 0 as baseAddress.
  intros baseAddress lineCounter ifs fuel.
  revert baseAddress lineCounter ifs data.
  induction fuel as [| fuel IH]; intros baseAddress lineCounter ifs data Hok E;
    [discriminate E |].
  cbn [read_loop] in E.
  destruct (IStream.good ifs); [| injection E as <- _; exact Hok].
  destruct (read_record _ ifs lineCounter baseAddress data)
    as [ifs1 baseAddress1 data1 | data1 o1] eqn:Eturn.
  - exact (IH _ _ _ _ (read_record_ok _ _ _ _ _ _ _ _ Hok Eturn) E).
  - injection E as <- _.
    rewrite (read_record_stop _ _ _ _ _ _ _ Eturn). exact Hok.
Qed.

(** C10.  A data record that the decoder accepts, whose effective address is
    the start address of a chunk of the model, and which fuses with no chunk,
    tail or head: the decoder goes on to the next record without an error,
    and the model is the one of before with the bytes of that chunk replaced
    by the bytes of the record.  Every other chunk stays, no chunk is added,
    and nothing of what the chunk held is kept. *)
Theorem insertion_at_chunk_start_replaces (uninit : ascii)
    (ws txt rest : list ascii) (r : hexrecord) (lineCounter baseAddress : Z)
    (data : ChunkMap.t) (old : list Z) :
  blank ws -> is_text txt r ->
  r_type r = 0 -> r_length r = size (r_payload r) ->
  r_checksum r = r_expected r ->
  let address := uint32 (r_address r + baseAddress) in
  ChunkMap.ok data ->
  ChunkMap.find data address = Some old ->
  fuse data address (r_payload r) = None ->
  read_record uninit (IStream.mk (ws ++ txt ++ rest) true)
    lineCounter baseAddress data
  = Continue (IStream.mk rest true) baseAddress
      (replaced data address (r_payload r))
  /\ ChunkMap.find (replaced data address (r_payload r)) address
     = Some (r_payload r)
  /\ List.length (replaced data address (r_payload r)) = List.length data.
Proof.
  intros Hws Htxt Htype Hlength Hck address Hok Hfind Hfuse.
  split; [| split].
  - rewrite (read_record_data _ _ _ _ r) by assumption.
    rewrite Hck, Z.eqb_refl. fold address.
    unfold insert_run. rewrite Hfuse.
    rewrite (assign_present _ _ _ _ Hok Hfind). reflexivity.
  - exact (find_replaced _ _ _ _ Hfind).
  - unfold replaced. apply length_map.
Qed.

(** ** What the encoder writes *)

Lemma put_hex2_app (s : OStream.t) (v : Z) : OStream.put_hex2 s v = s ++ hex2 v.
Proof. reflexivity. Qed.

Lemma swap16_hi (v : Z) : 0 <= v < 65536 -> swap16 v / 256 = Z.land v 255.
Proof.
  intros Hv. unfold swap16. change 255 with (Z.ones 8).
  rewrite Z.land_ones by lia.
  symmetry. apply Z.div_unique with (v / 256); [| reflexivity].
  left. split; [apply Z.div_pos; lia | apply Z.div_lt_upper_bound; lia].
Qed.

Lemma swap16_lo (v : Z) : 0 <= v < 65536 -> swap16 v mod 256 = Z.shiftr v 8.
Proof.
  intros Hv. unfold swap16. rewrite Z.shiftr_div_pow2 by lia.
  symmetry. apply Z.mod_unique with (v mod 256); [| reflexivity].
  left. split; [apply Z.div_pos; lia | apply Z.div_lt_upper_bound; lia].
Qed.

Lemma swap16_range (v : Z) : 0 <= v < 65536 -> 0 <= swap16 v < 65536.
Proof.
  intros Hv. unfold swap16.
  pose proof (Z.mod_pos_bound v 256 ltac:(lia)).
  assert (0 <= v / 256 < 256)
    by (split; [apply Z.div_pos; lia | apply Z.div_lt_upper_bound; lia]).
  lia.
Qed.

(** [(~x) + 1] on a [uint8]. *)
Lemma lnot_add_1 (x : Z) : uint8 (Z.lnot x + 1) = (256 - x) mod 256.
Proof.
  unfold uint8, Z.lnot.
  replace (Z.pred (- x) + 1) with (256 - x + (-1) * 256) by lia.
  rewrite Z.mod_add by lia. reflexivity.
Qed.

(** The address record the encoder writes is, byte for byte, an extended
    segment address record (type 02) of the value with its bytes exchanged. *)
Lemma writeExtendedLinearAddressRecord_text (stream : OStream.t) (addr16 : Z) :
  0 <= addr16 < 65536 ->
  writeExtendedLinearAddressRecord stream addr16
  = stream ++ text_of (segment_record (swap16 addr16)) ++ newline.
Proof.
  intros Ha. unfold writeExtendedLinearAddressRecord.
  rewrite !put_hex2_app. unfold OStream.put.
  unfold text_of, segment_record, sealed.
  cbn [r_length r_address_hi r_address_lo r_type r_payload r_checksum
       List.concat map].
  rewrite swap16_hi, swap16_lo by assumption.
  rewrite lnot_add_1.
  unfold r_expected, r_sum.
  cbn [r_length r_address_hi r_address_lo r_type r_payload sum fold_right].
  replace (uint8 (uint8 (uint8 (uint8 (uint8 (uint8 (0 + 2) + 0) + 0) + 2)
                         + Z.land addr16 255) + Z.shiftr addr16 8))
    with (uint8 (2 + 0 + 0 + 2 + (Z.land addr16 255 + (Z.shiftr addr16 8 + 0)))).
  - change (hex2 2) with ["0"%char; "2"%char].
    change (hex2 0) with ["0"%char; "0"%char].
    change (list_ascii_of_string ":02000002")
      with ([":"; "0"; "2"; "0"; "0"; "0"; "0"; "0"; "2"]%char).
    unfold newline. rewrite app_nil_r.
    do 3 (cbn [app]; rewrite <- ?app_assoc). reflexivity.
  - change (uint8 (uint8 (uint8 (uint8 (0 + 2) + 0) + 0) + 2)) with 4.
    rewrite uint8_add_l. f_equal. lia.
Qed.

Lemma write_bytes (data : list Z) (stream : OStream.t) (checkSum : Z) :
  0 <= checkSum < 256 ->
  fold_left
    (fun '(stream, checkSum) d =>
       (OStream.put_hex2 stream d, uint8 (checkSum + d)))
    data (stream, checkSum)
  = (stream ++ List.concat (map hex2 data), uint8 (checkSum + sum data)).
Proof.
  revert stream checkSum.
  induction data as [| d data IH]; intros stream checkSum Hcs.
  - cbn [fold_left map List.concat sum fold_right].
    rewrite app_nil_r, Z.add_0_r, uint8_small by assumption. reflexivity.
  - cbn [fold_left map List.concat]. rewrite IH by apply uint8_range.
    rewrite put_hex2_app, <- app_assoc, uint8_add_l.
    cbn [sum fold_right]. fold (sum data). do 2 f_equal. lia.
Qed.

(** The data record the encoder writes carries the two bytes of the row's
    address in exchanged order. *)
Lemma writeData_text (stream : OStream.t) (addr16 : Z) (data : list Z) :
  0 <= addr16 < 65536 ->
  writeData stream addr16 (size data) data
  = stream ++ text_of (data_record (swap16 addr16) data) ++ newline.
Proof.
  intros Ha. unfold writeData.
  replace (firstn (Z.to_nat (size data)) data) with data
    by (unfold size; rewrite Nat2Z.id, firstn_all; reflexivity).
  rewrite !put_hex2_app. unfold OStream.put.
  rewrite write_bytes by apply uint8_range.
  rewrite put_hex2_app, lnot_add_1.
  unfold text_of, data_record, sealed.
  cbn [r_length r_address_hi r_address_lo r_type r_payload r_checksum].
  rewrite swap16_hi, swap16_lo by assumption.
  unfold r_expected, r_sum.
  cbn [r_length r_address_hi r_address_lo r_type r_payload].
  replace (uint8 (uint8 (uint8 (uint8 (uint8 (0 + size data)
                                        + Z.land addr16 255)
                                 + Z.shiftr addr16 8) + 0) + sum data))
    with (uint8 (size data + Z.land addr16 255 + Z.shiftr addr16 8 + 0
                 + sum data)).
  - change (hex2 0) with ["0"%char; "0"%char].
    change (list_ascii_of_string "00") with ["0"%char; "0"%char].
    change (list_ascii_of_string ":") with [":"%char].
    unfold newline.
    do 3 (cbn [app]; rewrite <- ?app_assoc). reflexivity.
  - rewrite (uint8_add_l (0 + size data)).
    rewrite (uint8_add_l (0 + size data + Z.land addr16 255)).
    rewrite (uint8_add_l (0 + size data + Z.land addr16 255 + Z.shiftr addr16 8)).
    rewrite uint8_add_l. f_equal.
Qed.

(** ** Termination of the encoder *)

Lemma write_rows_total (fuel : nat) :
  forall (ofs : OStream.t) (address amount : Z) (second : list Z)
         (count highAddress : Z),
    0 <= count <= amount -> amount < 2 ^ 32 ->
    amount - count <= Z.of_nat fuel ->
    exists out,
      write_rows fuel ofs address amount second count highAddress = Some out.
Proof.
  induction fuel as [| fuel IH];
    intros ofs address amount second count highAddress Hc Ha Hf.
  - cbn [write_rows]. destruct (Z.ltb_spec count amount); [lia | eauto].
  - cbn [write_rows]. destruct (Z.ltb_spec count amount); [| eauto].
    rewrite (uint32_small (amount - count)) by lia.
    assert (Hrow : 1 <= Z.min (amount - count) 32 <= amount - count) by lia.
    rewrite (uint32_small (count + _)) by lia.
    apply IH; lia.
Qed.

(** [write] always produces its text. *)
Lemma write_total (data : ChunkMap.t) : exists text, write data = Some text.
Proof.
  unfold write.
  assert (H : forall ofs, exists out, write_chunks ofs data = Some out).
  { induction data as [| [first second] rest IH]; intros ofs;
      cbn [write_chunks]; [eauto |].
    unfold write_chunk.
    assert (Hamount : 0 <= uint32 (size second) <= size second).
    { unfold uint32. pose proof (size_nonneg second).
      split; [apply Z.mod_pos_bound; lia | apply Z.mod_le; lia]. }
    destruct (write_rows_total (List.length second)
                (writeExtendedLinearAddressRecord ofs
                   (Z.shiftr (uint32 first) 16))
                (uint32 first) (uint32 (size second)) second 0
                (Z.shiftr (uint32 first) 16)) as [out E].
    - lia.
    - unfold uint32. apply Z.mod_pos_bound. lia.
    - unfold size in *. lia.
    - rewrite E. apply IH. }
  destruct (H OStream.open) as [out E]. rewrite E. eauto.
Qed.

(** ** Encoding, then decoding *)

Lemma write_rows_done (fuel : nat) (ofs : OStream.t) (address amount : Z)
    (second : list Z) (count highAddress : Z) :
  amount <= count ->
  write_rows fuel ofs address amount second count highAddress = Some ofs.
Proof.
  intros H. destruct fuel; cbn [write_rows];
    destruct (Z.ltb_spec count amount); (reflexivity || lia).
Qed.

(** A chunk of at most 32 bytes in the first 64K page is written as one
    row. *)
Lemma write_rows_single (ofs : OStream.t) (address : Z) (second : list Z) :
  0 <= address < 65536 -> 0 < size second <= 32 ->
  write_rows (List.length second) ofs address (size second) second 0 0
  = Some (writeData ofs address (size second) second).
Proof.
  intros Ha Hs.
  destruct second as [| x xs]; [unfold size in Hs; simpl in Hs; lia |].
  set (second := x :: xs) in *.
  change (List.length second) with (S (List.length xs)).
  cbn [write_rows].
  destruct (Z.ltb_spec 0 (size second)); [| lia].
  rewrite Z.add_0_r, Z.sub_0_r, Z.add_0_l.
  rewrite (uint32_small address) by lia.
  rewrite (uint32_small (size second)) by lia.
  replace (Z.shiftr address 16) with 0
    by (rewrite Z.shiftr_div_pow2 by lia; symmetry; apply Z.div_small; lia).
  cbn [Z.eqb negb].
  replace (Z.min (size second) 32) with (size second) by lia.
  rewrite (uint32_small (size second)) by lia.
  change (Z.to_nat 0) with O. cbn [skipn].
  replace (Z.land address 65535) with address
    by (change 65535 with (Z.ones 16); rewrite Z.land_ones by lia;
        symmetry; apply Z.mod_small; lia).
  replace (firstn (Z.to_nat (size second)) second) with second
    by (unfold size; rewrite Nat2Z.id, firstn_all; reflexivity).
  apply write_rows_done. lia.
Qed.

(** C1.  A model of one chunk of 1 to 32 bytes at an address below 64K,
    encoded and decoded again: the chunk comes back with its bytes, at the
    address with its two low bytes exchanged.  The round trip keeps the
    address-to-bytes mapping only for the addresses that are their own
    exchange; the chunk at address 1 comes back at address 256.  And a chunk
    of 40 bytes comes back as its last 8 bytes, every row being written for
    the start address of the chunk. *)
Theorem roundtrip_exchanges_address_bytes :
  (forall (uninit : Z -> ascii) (address : Z) (second : list Z),
      0 <= address < 65536 -> bytes second -> 0 < size second <= 32 ->
      exists text,
        write [(address, second)] = Some text
        /\ read uninit text ChunkMap.empty
           = Some ([(swap16 address, second)], Returned))
  /\ (forall uninit : Z -> ascii,
         exists text,
           write [(1, [170])] = Some text
           /\ read uninit text ChunkMap.empty = Some ([(256, [170])], Returned)
           /\ ChunkMap.byte_at [(1, [170])] 1 = Some 170
           /\ ChunkMap.byte_at [(256, [170])] 1 = None)
  /\ (forall uninit : Z -> ascii,
         exists text,
           write [(0, repeat 7 40)] = Some text
           /\ read uninit text ChunkMap.empty
              = Some ([(0, repeat 7 8)], Returned)).
Proof.
  split; [| split].
  - intros uninit address second Ha Hb Hs.
    unfold write, write_chunks, write_chunk.
    rewrite (uint32_small address) by lia.
    rewrite (uint32_small (size second)) by lia.
    replace (Z.shiftr address 16) with 0
      by (rewrite Z.shiftr_div_pow2 by lia; symmetry; apply Z.div_small; lia).
    rewrite write_rows_single by assumption.
    eexists. split; [reflexivity |].
    rewrite writeData_text by assumption.
    rewrite writeExtendedLinearAddressRecord_text by lia.
    unfold OStream.open, OStream.put. fold eof_text.
    change (swap16 0) with 0. cbn [app]. rewrite <- !app_assoc.
    pose proof (swap16_range address Ha) as Hswap.
    rewrite (read_unfold 1), Nat.add_1_r. unfold IStream.open.
    erewrite read_loop_continue;
      [| apply (read_record_segment_record _ []); [apply blank_nil | lia]].
    erewrite read_loop_continue;
      [| apply read_record_data_record;
         [apply blank_newline | assumption | assumption | lia]].
    erewrite read_loop_stop;
      [| rewrite <- (app_nil_r eof_text); apply read_record_eof].
    change (Z.shiftl 0 4) with 0. rewrite Z.add_0_r.
    rewrite uint32_small by lia. reflexivity.
  - intros uninit. eexists. split; [vm_compute; reflexivity |].
    repeat split; vm_compute; reflexivity.
  - intros uninit. eexists. split; [vm_compute; reflexivity |].
    vm_compute; reflexivity.
Qed.

(** C3.  The address record the encoder writes before the rows of a chunk,
    and again when a row starts in another 64K page, is not an extended
    linear address record: its type byte is 02 and the two bytes of the page
    come least significant first.  For the chunk at [0x12340000] the text is
    [:020000023412b6]; the decoder takes it for an extended segment address
    record of value [0x3412] and puts the chunk at [0x34120]. *)
Theorem address_record_is_a_segment_record :
  (forall (stream : OStream.t) (addr16 : Z),
      0 <= addr16 < 65536 ->
      writeExtendedLinearAddressRecord stream addr16
      = stream ++ text_of (segment_record (swap16 addr16)) ++ newline)
  /\ write [(305397760, [171])]
     = Some (list_ascii_of_string ":020000023412b6" ++ newline
             ++ list_ascii_of_string ":01000000ab54" ++ newline
             ++ list_ascii_of_string ":00000001FF")
  /\ text_of (linear_record 4660) = list_ascii_of_string ":020000041234b4"
  /\ (forall uninit : Z -> ascii,
         read uninit
           (list_ascii_of_string ":020000023412b6" ++ newline
            ++ list_ascii_of_string ":01000000ab54" ++ newline
            ++ list_ascii_of_string ":00000001FF")
           ChunkMap.empty
         = Some ([(213280, [171])], Returned)).
Proof.
  split; [| split; [| split]].
  - intros stream addr16 Ha.
    apply writeExtendedLinearAddressRecord_text. assumption.
  - vm_compute. reflexivity.
  - vm_compute. reflexivity.
  - intros uninit. vm_compute. reflexivity.
Qed.

(** ** The theorems at concrete inputs *)

Lemma bytes_ok_example : bytes_ok (data_record 16 [1; 2]).
Proof.
  apply data_record_ok; [lia | repeat constructor; lia | reflexivity].
Qed.

(** The data record [:02001000010206EB]-like line for the bytes 1, 2 at
    address 16 is accepted. *)
Lemma checksum_decides_acceptance_witness :
  blank [] /\ is_text (text_of (data_record 16 [1; 2])) (data_record 16 [1; 2])
  /\ framed (data_record 16 [1; 2])
  /\ exists baseAddress' data',
      read_record "x"%char
        (IStream.mk ([] ++ text_of (data_record 16 [1; 2]) ++ newline) true)
        0 0 ChunkMap.empty
      = Continue (IStream.mk newline true) baseAddress' data'.
Proof.
  assert (Hws : blank []) by constructor.
  assert (Htxt : is_text (text_of (data_record 16 [1; 2]))
                   (data_record 16 [1; 2]))
    by (apply text_of_is_text, bytes_ok_example).
  assert (Hframed : framed (data_record 16 [1; 2]))
    by (left; split; reflexivity).
  split; [exact Hws |]. split; [exact Htxt |]. split; [exact Hframed |].
  apply (proj2 (proj1 (checksum_decides_acceptance "x"%char [] _ newline _
                         0 0 ChunkMap.empty Hws Htxt Hframed))).
  vm_compute. reflexivity.
Defined.

(** The same record with its second data byte changed from 2 to 3. *)
Lemma checksum_detects_changed_byte_witness :
  let r := data_record 16 [1; 2] in
  let r' := mkrecord (r_length r) (r_address_hi r) (r_address_lo r) (r_type r)
              ([1] ++ 3 :: []) (r_checksum r) in
  changed r r'
  /\ read_loop 1 (fun _ => "x"%char)
       (IStream.mk ([] ++ text_of r' ++ newline) true) 0 0 ChunkMap.empty
     = Some (ChunkMap.empty,
             Thrown (WrongCheckSum 0 (r_checksum r) (r_expected r'))).
Proof.
  intros r r'.
  assert (Hchanged : changed r r').
  { apply (changed_payload r [1] [] 2 3); [reflexivity | lia]. }
  split; [exact Hchanged |].
  apply (checksum_detects_changed_byte (fun _ => "x"%char) 0 []
           (text_of r) (text_of r') newline r r' 0 0 ChunkMap.empty).
  - constructor.
  - apply text_of_is_text, bytes_ok_example.
  - reflexivity.
  - reflexivity.
  - reflexivity.
  - exact Hchanged.
  - apply text_of_is_text.
    unfold bytes_ok. cbn. repeat split; try lia. repeat constructor; lia.
Defined.

Lemma coalescing_of_two_records_witness :
  read (fun _ => "x"%char)
    (text_of (data_record 272 (repeat 2 16)) ++ newline
     ++ text_of (data_record 256 (repeat 1 16)) ++ newline ++ eof_text)
    ChunkMap.empty
  = Some ([(272, repeat 1 16 ++ repeat 2 16)], Returned).
Proof.
  apply (coalescing_of_two_records (fun _ => "x"%char)
           (repeat 1 16) (repeat 2 16)).
  - unfold bytes. cbn [repeat]. repeat constructor; lia.
  - unfold bytes. cbn [repeat]. repeat constructor; lia.
  - reflexivity.
  - reflexivity.
Defined.

(** The file of the one line [:0100000000ff] and a newline. *)
Lemma exhaustion_is_not_early_eof_witness :
  well_formed [(data_record 0 [0], newline)]
  /\ exists data' e,
      read (fun _ => "x"%char) (layout [(data_record 0 [0], newline)])
        ChunkMap.empty
      = Some (data', Thrown e)
      /\ e = InvalidRecord 1.
Proof.
  assert (Hrs : well_formed [(data_record 0 [0], newline)]).
  { constructor; [| constructor]. split.
    - split; [| split].
      + apply data_record_ok; [lia | repeat constructor; lia | reflexivity].
      + left. split; reflexivity.
      + reflexivity.
    - apply blank_newline. }
  split; [exact Hrs |].
  destruct (exhaustion_is_not_early_eof (fun _ => "x"%char)
              [(data_record 0 [0], newline)] ChunkMap.empty Hrs)
    as (data' & e & E & He & _ & _).
  exists data', e. split; [exact E | exact He].
Defined.

Lemma failed_decode_keeps_accepted_records_witness :
  exists ifs' baseAddress',
    accept 1 (fun _ => "x"%char)
      (IStream.open (list_ascii_of_string ":0100000000FF" ++ newline
                     ++ list_ascii_of_string "oops"))
      0 0 ChunkMap.empty
    = Some (ifs', baseAddress', [(0, [0])]).
Proof.
  destruct (failed_decode_keeps_accepted_records (fun _ => "x"%char)
              (list_ascii_of_string ":0100000000FF" ++ newline
               ++ list_ascii_of_string "oops")
              ChunkMap.empty [(0, [0])] (InvalidRecord 1) eq_refl)
    as (_ & (ifs' & baseAddress' & E & _) & _).
  exists ifs', baseAddress'. exact E.
Defined.

(** A record of one byte for the start address of a chunk of three. *)
Lemma insertion_at_chunk_start_replaces_witness :
  read_record "x"%char
    (IStream.mk ([] ++ text_of (data_record 16 [9]) ++ newline) true)
    0 0 [(16, [1; 2; 3]); (32, [4])]
  = Continue (IStream.mk newline true) 0 [(16, [9]); (32, [4])].
Proof.
  apply (proj1 (insertion_at_chunk_start_replaces "x"%char [] _ newline
                  (data_record 16 [9]) 0 0 [(16, [1; 2; 3]); (32, [4])]
                  [1; 2; 3] blank_nil
                  (text_of_is_text _
                     (data_record_ok 16 [9] ltac:(lia)
                        ltac:(repeat constructor; lia) eq_refl))
                  eq_refl eq_refl eq_refl
                  (conj (eq_refl : 16 < 32) (conj I I)) eq_refl eq_refl)).
Defined.

Lemma roundtrip_exchanges_address_bytes_witness :
  exists text,
    write [(1, [170])] = Some text
    /\ read (fun _ => "x"%char) text ChunkMap.empty
       = Some ([(swap16 1, [170])], Returned).
Proof.
  apply (proj1 roundtrip_exchanges_address_bytes (fun _ => "x"%char) 1 [170]).
  - lia.
  - repeat constructor; lia.
  - vm_compute. split; [reflexivity | discriminate].
Defined.

Lemma address_record_is_a_segment_record_witness :
  writeExtendedLinearAddressRecord [] 4660
  = [] ++ text_of (segment_record (swap16 4660)) ++ newline.
Proof.
  apply (proj1 address_record_is_a_segment_record [] 4660). lia.
Defined.


(** * Further properties of the code *)

(** ** The lexer *)

Lemma hexval_lower (n : Z) :
  0 <= n < 16 -> hexval (OStream.hex_digit n) = Some n.
Proof.
  intros Hn.
  assert (Hall : forallb
                   (fun k => match hexval (OStream.hex_digit (Z.of_nat k)) with
                             | Some v => v =? Z.of_nat k
                             | None => false
                             end) (seq 0 16) = true)
    by (vm_compute; reflexivity).
  rewrite forallb_forall in Hall. specialize (Hall (Z.to_nat n)).
  rewrite Z2Nat.id in Hall by lia.
  destruct (hexval (OStream.hex_digit n)) as [v |].
  - f_equal. apply Z.eqb_eq. apply Hall. apply in_seq. lia.
  - discriminate Hall. apply in_seq. lia.
Qed.

Lemma hexval_upper (n : Z) : 0 <= n < 16 -> hexval (upper_digit n) = Some n.
Proof.
  intros Hn.
  assert (Hall : forallb
                   (fun k => match hexval (upper_digit (Z.of_nat k)) with
                             | Some v => v =? Z.of_nat k
                             | None => false
                             end) (seq 0 16) = true)
    by (vm_compute; reflexivity).
  rewrite forallb_forall in Hall. specialize (Hall (Z.to_nat n)).
  rewrite Z2Nat.id in Hall by lia.
  destruct (hexval (upper_digit n)) as [v |].
  - f_equal. apply Z.eqb_eq. apply Hall. apply in_seq. lia.
  - discriminate Hall. apply in_seq. lia.
Qed.

(** X1.  The lexer reads hexadecimal digits of either case, most significant
    first: four digits for the nibbles [a], [b], [c], [d], each written in
    lower or in upper case, are read by [getUint16] as
    [4096 a + 256 b + 16 c + d], and exactly these four characters are
    consumed. *)
Theorem lexer_reads_digits_of_either_case (a b c d : Z)
    (ca cb cc cd : ascii) (rest : list ascii) :
  0 <= a < 16 -> 0 <= b < 16 -> 0 <= c < 16 -> 0 <= d < 16 ->
  ca = OStream.hex_digit a \/ ca = upper_digit a ->
  cb = OStream.hex_digit b \/ cb = upper_digit b ->
  cc = OStream.hex_digit c \/ cc = upper_digit c ->
  cd = OStream.hex_digit d \/ cd = upper_digit d ->
  getUint16 (IStream.mk (ca :: cb :: cc :: cd :: rest) true)
  = (4096 * a + 256 * b + 16 * c + d, IStream.mk rest true).
Proof.
  intros Ha Hb Hc Hd Hca Hcb Hcc Hcd.
  assert (Va : hexval ca = Some a)
    by (destruct Hca as [-> | ->]; [apply hexval_lower | apply hexval_upper];
        assumption).
  assert (Vb : hexval cb = Some b)
    by (destruct Hcb as [-> | ->]; [apply hexval_lower | apply hexval_upper];
        assumption).
  assert (Vc : hexval cc = Some c)
    by (destruct Hcc as [-> | ->]; [apply hexval_lower | apply hexval_upper];
        assumption).
  assert (Vd : hexval cd = Some d)
    by (destruct Hcd as [-> | ->]; [apply hexval_lower | apply hexval_upper];
        assumption).
  change (ca :: cb :: cc :: cd :: rest) with ([ca; cb] ++ [cc; cd] ++ rest).
  rewrite (getUint16_hex2 [ca; cb] [cc; cd] (16 * a + b) (16 * c + d)).
  - f_equal. lia.
  - unfold hex2_value. rewrite Va, Vb. reflexivity.
  - unfold hex2_value. rewrite Vc, Vd. reflexivity.
Qed.

(** X2.  The lexer reads back what the encoder's formatter writes: a byte
    written with [setw(2)], [hex] and the fill character ['0'] is two
    characters, which [getUint8] reads as that byte. *)
Theorem lexer_reads_formatter (stream : OStream.t) (b : Z)
    (rest : list ascii) :
  0 <= b < 256 ->
  exists c1 c2,
    OStream.put_hex2 stream b = stream ++ [c1; c2]
    /\ getUint8 (IStream.mk ([c1; c2] ++ rest) true)
       = (b, IStream.mk rest true).
Proof.
  intros Hb. pose proof (hex2_value_hex2 b Hb) as Hv.
  rewrite put_hex2_app.
  destruct (hex2 b) as [| c1 [| c2 [| c3 cs]]] eqn:E;
    try (unfold hex2_value in Hv; discriminate Hv).
  exists c1, c2. split; [reflexivity |].
  apply getUint8_hex2. exact Hv.
Qed.

(** X3.  The lexer never fails: on a stream that is exhausted, or not good
    any more, [getUint8] returns [0xFFFFFFFF] (the byte [0xFF] once stored in
    a [uint8]) and [getUint16] the same, and the stream is left not good. *)
Theorem lexer_at_end_of_stream (s : IStream.t) :
  IStream.buf s = [] \/ IStream.good s = false ->
  fst (getUint8 s) = 4294967295
  /\ uint8 (fst (getUint8 s)) = 255
  /\ IStream.good (snd (getUint8 s)) = false
  /\ uint16 (fst (getUint16 s)) = 65535
  /\ IStream.good (snd (getUint16 s)) = false.
Proof.
  destruct s as [content [|]]; cbn [IStream.buf IStream.good].
  - intros [-> | H]; [| discriminate H].
    repeat split; vm_compute; reflexivity.
  - intros _. repeat split; vm_compute; reflexivity.
Qed.

(** ** The records the decoder rejects, and the one that ends it *)

Lemma extract_char_other (uninit c : ascii) (ws rest : list ascii) :
  blank ws -> IStream.isspace c = false ->
  IStream.extract_char uninit (IStream.mk (ws ++ c :: rest) true)
  = (c, IStream.mk rest true).
Proof.
  intros Hws Hc. unfold IStream.extract_char. cbn [IStream.good IStream.buf].
  rewrite skipws_blank by assumption. cbn [IStream.skipws]. rewrite Hc.
  reflexivity.
Qed.

(** X4.  A line that starts with anything but a colon, white space skipped,
    stops the decode with [InvalidRecord] and the current line count; the
    model is as the records before had left it. *)
Theorem missing_colon_is_invalid_record (uninit : Z -> ascii) (fuel : nat)
    (ws rest : list ascii) (c : ascii) (lineCounter baseAddress : Z)
    (data : ChunkMap.t) :
  blank ws -> IStream.isspace c = false -> c <> ":"%char ->
  read_loop (S fuel) uninit (IStream.mk (ws ++ c :: rest) true)
    lineCounter baseAddress data
  = Some (data, Thrown (InvalidRecord lineCounter)).
Proof.
  intros Hws Hspace Hc. apply read_loop_stop. unfold read_record.
  rewrite extract_char_other by assumption.
  apply Ascii.eqb_neq in Hc. rewrite Hc. reflexivity.
Qed.

(** The header of a line: the colon, the length, the address and the type. *)
Lemma read_record_header (uninit : ascii) (ws len hi lo ty rest : list ascii)
    (l h a t : Z) (lineCounter baseAddress : Z) (data : ChunkMap.t) :
  blank ws ->
  hex2_value len = Some l -> hex2_value hi = Some h ->
  hex2_value lo = Some a -> hex2_value ty = Some t ->
  (t = 1 ->
   read_record uninit
     (IStream.mk (ws ++ ":"%char :: len ++ hi ++ lo ++ ty ++ rest) true)
     lineCounter baseAddress data
   = Stop data Returned)
  /\ (t <> 0 -> t <> 1 -> t <> 2 -> t <> 4 ->
      read_record uninit
        (IStream.mk (ws ++ ":"%char :: len ++ hi ++ lo ++ ty ++ rest) true)
        lineCounter baseAddress data
      = Stop data (Thrown (UnknownRecordType lineCounter t))).
Proof.
  intros Hws Hlen Hhi Hlo Hty.
  pose proof (hex2_value_range _ _ Hlen).
  pose proof (hex2_value_range _ _ Hhi).
  pose proof (hex2_value_range _ _ Hlo).
  pose proof (hex2_value_range _ _ Hty) as Rt.
  unfold read_record.
  rewrite extract_char_colon by assumption.
  cbn [Ascii.eqb Bool.eqb negb andb].
  rewrite (getUint8_hex2 _ _ _ Hlen).
  rewrite (getUint16_hex2 _ _ _ _ _ Hhi Hlo).
  rewrite (getUint8_hex2 _ _ _ Hty).
  rewrite (uint8_small t) by assumption.
  split.
  - intros ->. reflexivity.
  - intros T0 T1 T2 T4.
    destruct t as [| p |]; [contradiction | | lia].
    destruct p as [[q | q |] | [[q | q |] | [q | q |] |] |];
      try reflexivity; contradiction.
Qed.

(** X5.  A record of type 01 ends the decode with a normal return, whatever
    its length and address fields say and whatever follows the type field:
    no checksum is read for it, and the rest of the stream is left unread.
    The model is the one the records before had built. *)
Theorem end_of_file_record_returns (uninit : Z -> ascii) (fuel : nat)
    (ws len hi lo ty rest : list ascii) (l h a : Z)
    (lineCounter baseAddress : Z) (data : ChunkMap.t) :
  blank ws ->
  hex2_value len = Some l -> hex2_value hi = Some h ->
  hex2_value lo = Some a -> hex2_value ty = Some 1 ->
  read_loop (S fuel) uninit
    (IStream.mk (ws ++ ":"%char :: len ++ hi ++ lo ++ ty ++ rest) true)
    lineCounter baseAddress data
  = Some (data, Returned).
Proof.
  intros Hws Hlen Hhi Hlo Hty. apply read_loop_stop.
  apply (proj1 (read_record_header _ _ _ _ _ _ rest _ _ _ _ lineCounter
                  baseAddress data Hws Hlen Hhi Hlo Hty)).
  reflexivity.
Qed.

(** X6.  A record whose type is none of 0, 1, 2 and 4 stops the decode with
    [UnknownRecordType], carrying the line count and the type; nothing after
    the type field is read, and the model is as the records before had left
    it. *)
Theorem unknown_record_type_is_rejected (uninit : Z -> ascii) (fuel : nat)
    (ws len hi lo ty rest : list ascii) (l h a t : Z)
    (lineCounter baseAddress : Z) (data : ChunkMap.t) :
  blank ws ->
  hex2_value len = Some l -> hex2_value hi = Some h ->
  hex2_value lo = Some a -> hex2_value ty = Some t ->
  t <> 0 -> t <> 1 -> t <> 2 -> t <> 4 ->
  read_loop (S fuel) uninit
    (IStream.mk (ws ++ ":"%char :: len ++ hi ++ lo ++ ty ++ rest) true)
    lineCounter baseAddress data
  = Some (data, Thrown (UnknownRecordType lineCounter t)).
Proof.
  intros Hws Hlen Hhi Hlo Hty H0 H1 H2 H4. apply read_loop_stop.
  apply (proj2 (read_record_header _ _ _ _ _ _ rest _ _ _ _ lineCounter
                  baseAddress data Hws Hlen Hhi Hlo Hty)); assumption.
Qed.

(** ** The decode of a well-formed file *)

Lemma read_record_effect (uninit : ascii) (ws rest : list ascii)
    (r : hexrecord) (lineCounter baseAddress : Z) (data : ChunkMap.t) :
  blank ws -> accepted r ->
  read_record uninit (IStream.mk (ws ++ text_of r ++ rest) true)
    lineCounter baseAddress data
  = Continue (IStream.mk rest true)
      (fst (effect (baseAddress, data) r))
      (snd (effect (baseAddress, data) r)).
Proof.
  intros Hws (Hok & Hframed & Hck).
  pose proof (text_of_is_text r Hok) as Htxt.
  unfold effect.
  destruct Hframed as [[Htype Hlength] | (Htype & Hlength & Hbytes)].
  - rewrite (read_record_data _ _ _ _ r) by assumption.
    rewrite Hck, Z.eqb_refl, Htype. reflexivity.
  - destruct (r_payload r) as [| p0 [| p1 [| p2 payload]]] eqn:Hpayload;
      try discriminate Hbytes.
    rewrite (read_record_extended _ _ _ _ r p0 p1) by assumption.
    rewrite Hck, Z.eqb_refl. unfold r_value. rewrite Hpayload.
    destruct Htype as [-> | ->]; reflexivity.
Qed.

Lemma read_record_eof_text (uninit : ascii) (ws rest : list ascii)
    (lineCounter baseAddress : Z) (data : ChunkMap.t) :
  blank ws ->
  read_record uninit (IStream.mk (ws ++ eof_text ++ rest) true)
    lineCounter baseAddress data
  = Stop data Returned.
Proof.
  intros Hws.
  change (eof_text ++ rest)
    with (":"%char :: ["0"; "0"]%char ++ ["0"; "0"]%char ++ ["0"; "0"]%char
            ++ ["0"; "1"]%char ++ (["F"; "F"]%char ++ rest)).
  apply (proj1 (read_record_header uninit ws ["0"; "0"]%char ["0"; "0"]%char
                  ["0"; "0"]%char ["0"; "1"]%char (["F"; "F"]%char ++ rest)
                  0 0 0 1 lineCounter baseAddress data Hws
                  eq_refl eq_refl eq_refl eq_refl)).
  reflexivity.
Qed.

Lemma effects_cons (item : hexrecord * list ascii)
    (rs : list (hexrecord * list ascii)) (state : Z * ChunkMap.t) :
  effects (item :: rs) state = effects rs (effect state (fst item)).
Proof. reflexivity. Qed.

Lemma read_loop_file (rs : list (hexrecord * list ascii)) :
  forall (uninit : Z -> ascii) (fuel : nat) (ws rest : list ascii)
         (lineCounter baseAddress : Z) (data : ChunkMap.t),
    blank ws -> well_formed rs ->
    (measure (IStream.mk (ws ++ layout rs ++ eof_text ++ rest) true) < fuel)%nat ->
    read_loop fuel uninit
      (IStream.mk (ws ++ layout rs ++ eof_text ++ rest) true)
      lineCounter baseAddress data
    = Some (snd (effects rs (baseAddress, data)), Returned).
Proof.
  induction rs as [| [r ws1] rs IH];
    intros uninit fuel ws rest lineCounter baseAddress data Hws Hrs Hfuel;
    (destruct fuel as [| fuel]; [lia |]).
  - cbn [layout app effects fold_left snd].
    apply read_loop_stop. apply read_record_eof_text. assumption.
  - inversion Hrs as [| item rs0 [Hr Hws1] Hrs']; subst.
    cbn [fst snd] in Hr, Hws1. cbn [layout].
    rewrite <- !app_assoc.
    rewrite (read_loop_continue _ _ _ _ _ _ _ _ _
               (read_record_effect _ ws _ r lineCounter baseAddress data
                  Hws Hr)).
    rewrite effects_cons. cbn [fst].
    destruct (effect (baseAddress, data) r) as [baseAddress' data'] eqn:E.
    cbn [fst snd].
    apply (IH uninit fuel ws1 rest (lineCounter + 1) baseAddress' data'
             Hws1 Hrs').
    unfold measure in *. cbn [IStream.good IStream.buf] in *.
    cbn [layout] in Hfuel. rewrite <- !app_assoc in Hfuel.
    rewrite !length_app in Hfuel. rewrite !length_app.
    pose proof (text_of_length r). lia.
Qed.

Lemma read_file (uninit : Z -> ascii) (rs : list (hexrecord * list ascii))
    (rest : list ascii) (data : ChunkMap.t) :
  well_formed rs ->
  read uninit (layout rs ++ eof_text ++ rest) data
  = Some (snd (effects rs (0, data)), Returned).
Proof.
  intros Hrs. unfold read, IStream.open.
  apply (read_loop_file rs uninit _ [] rest 0 0 data blank_nil Hrs).
  unfold measure. cbn [app IStream.good IStream.buf]. lia.
Qed.


(** ** Records that follow one another in memory *)




(** ** What an insertion keeps *)

Lemma assign_keys (m : ChunkMap.t) (k : Z) (v : list Z) :
  incl (keys m) (keys (ChunkMap.assign m k v))
  /\ In k (keys (ChunkMap.assign m k v))
  /\ (List.length (ChunkMap.assign m k v) <= S (List.length m))%nat.
Proof.
  induction m as [| [k' v'] rest (IHincl & IHin & IHlen)];
    cbn [ChunkMap.assign].
  - repeat split; [intros x [] | left; reflexivity | cbn; lia].
  - destruct (Z.ltb_spec k k'); [| destruct (Z.eqb_spec k k') as [-> | Hne]].
    + repeat split; [intros x Hx; right; exact Hx | left; reflexivity
                     | cbn [List.length]; lia].
    + repeat split; [intros x Hx; exact Hx | left; reflexivity
                     | cbn [List.length]; lia].
    + repeat split.
      * intros x [<- | Hx]; [left; reflexivity | right; apply IHincl; exact Hx].
      * right. exact IHin.
      * cbn [List.length]. lia.
Qed.

(** X9.  An insertion never removes a chunk and never moves one to another
    address: every start address of the model is a start address after the
    insertion, the only start address that can be new is the address of the
    record, and at most one chunk is added.  When the record fuses with a
    chunk, the start addresses are exactly those of before, head fusion
    included. *)
Theorem insertion_keeps_the_start_addresses (data : ChunkMap.t) (address : Z)
    (recordData : list Z) :
  incl (keys data) (keys (insert_run data address recordData))
  /\ incl (keys (insert_run data address recordData)) (address :: keys data)
  /\ (List.length (insert_run data address recordData)
      <= S (List.length data))%nat
  /\ match fuse data address recordData with
     | Some _ => keys (insert_run data address recordData) = keys data
     | None => In address (keys (insert_run data address recordData))
     end.
Proof.
  unfold insert_run.
  destruct (fuse data address recordData) as [data' |] eqn:E.
  - pose proof (fuse_keys _ _ _ _ E) as Hkeys. fold (keys data') in Hkeys.
    fold (keys data) in Hkeys. rewrite Hkeys.
    repeat split.
    + apply incl_refl.
    + apply incl_tl, incl_refl.
    + assert (Hlen : List.length (keys data') = List.length (keys data))
        by (rewrite Hkeys; reflexivity).
      unfold keys in Hlen. rewrite !length_map in Hlen. lia.
  - destruct (assign_keys data address recordData) as (Hincl & Hin & Hlen).
    repeat split; try assumption.
    intros k Hk. unfold keys in Hk. apply in_map_iff in Hk.
    destruct Hk as (c & <- & Hc).
    destruct (assign_in _ _ _ _ Hc) as [-> | Hc'].
    + left. reflexivity.
    + right. unfold keys. apply in_map. exact Hc'.
Qed.

(** Whether the run of [v] at [k] covers the address [y]. *)
Lemma byte_at_assign (m : ChunkMap.t) (k : Z) (v : list Z) :
  clear_of m k v ->
  forall y,
    ChunkMap.byte_at (ChunkMap.assign m k v) y
    = if (k <=? y) && (y <? k + size v)
      then nth_error v (Z.to_nat (y - k))
      else ChunkMap.byte_at m y.
Proof.
  induction m as [| [k' v'] rest IH]; intros Hclear y;
    cbn [ChunkMap.assign ChunkMap.byte_at]; [reflexivity |].
  pose proof (size_nonneg v) as Hv. pose proof (size_nonneg v') as Hv'.
  assert (Hhead : k + size v < k' \/ k' + size v' <= k)
    by (apply Hclear; left; reflexivity).
  assert (Hrest : clear_of rest k v)
    by (intros a b Hin; apply Hclear; right; exact Hin).
  destruct (Z.ltb_spec k k'); [| destruct (Z.eqb_spec k k') as [-> | Hne]].
  - cbn [ChunkMap.byte_at]. reflexivity.
  - cbn [ChunkMap.byte_at].
    destruct (Z.leb_spec k' y), (Z.ltb_spec y (k' + size v)),
      (Z.ltb_spec y (k' + size v')); cbn [andb]; try reflexivity; lia.
  - cbn [ChunkMap.byte_at]. rewrite (IH Hrest).
    destruct (Z.leb_spec k' y), (Z.ltb_spec y (k' + size v')),
      (Z.leb_spec k y), (Z.ltb_spec y (k + size v)); cbn [andb];
      try reflexivity; lia.
Qed.

Lemma byte_at_fuse (m : ChunkMap.t) (address : Z) (recordData : list Z) :
  forall m',
    fuse m address recordData = Some m' ->
    in_range m -> 0 <= address -> address + size recordData < 2 ^ 64 ->
    clear_of m address recordData ->
    forall y,
      ChunkMap.byte_at m' y
      = if (address <=? y) && (y <? address + size recordData)
        then nth_error recordData (Z.to_nat (y - address))
        else ChunkMap.byte_at m y.
Proof.
  induction m as [| [first second] rest IH];
    intros m' E Hrange Ha Hend Hclear y; [discriminate E |].
  pose proof (size_nonneg recordData) as Hd.
  pose proof (size_nonneg second) as Hs.
  destruct (Hrange first second (or_introl eq_refl)) as [Hf0 Hf1].
  assert (Hhead : address + size recordData < first
                  \/ first + size second <= address)
    by (apply Hclear; left; reflexivity).
  cbn [fuse] in E.
  rewrite !size_t_small in E by lia.
  destruct (Z.eqb_spec address (first + size second)) as [Ht | Ht].
  { injection E as <-. cbn [ChunkMap.byte_at]. rewrite size_app.
    destruct (Z.leb_spec first y), (Z.ltb_spec y (first + size second)),
      (Z.ltb_spec y (first + (size second + size recordData))),
      (Z.leb_spec address y), (Z.ltb_spec y (address + size recordData));
      cbn [andb]; try reflexivity; try lia.
    - apply nth_error_app1. unfold size in *. lia.
    - rewrite nth_error_app2 by (unfold size in *; lia).
      f_equal. unfold size in *. lia. }
  destruct (Z.eqb_spec (address + size recordData) first) as [Hh | Hh];
    [lia |].
  destruct (fuse rest address recordData) as [rest' |] eqn:Erest;
    [| discriminate E].
  injection E as <-. cbn [ChunkMap.byte_at].
  rewrite (IH rest' eq_refl).
  - destruct (Z.leb_spec first y), (Z.ltb_spec y (first + size second)),
      (Z.leb_spec address y), (Z.ltb_spec y (address + size recordData));
      cbn [andb]; try reflexivity; lia.
  - intros a b Hin. apply Hrange. right. exact Hin.
  - assumption.
  - assumption.
  - intros a b Hin. apply Hclear. right. exact Hin.
Qed.

(** X10.  Insertion, then lookup.  When the inserted run overlaps no stored
    chunk and does not end at the very address where a stored chunk starts,
    the model after the insertion holds the bytes of the run at their
    addresses, and at every other address what it held before: whether the
    run was appended to a chunk or became a chunk of its own makes no
    difference to the bytes. *)
Theorem insertion_stores_the_run (data : ChunkMap.t) (address : Z)
    (recordData : list Z) (y : Z) :
  in_range data -> 0 <= address -> address + size recordData < 2 ^ 64 ->
  clear_of data address recordData ->
  ChunkMap.byte_at (insert_run data address recordData) y
  = if (address <=? y) && (y <? address + size recordData)
    then nth_error recordData (Z.to_nat (y - address))
    else ChunkMap.byte_at data y.
Proof.
  intros Hrange Ha Hend Hclear. unfold insert_run.
  destruct (fuse data address recordData) as [data' |] eqn:E.
  - apply (byte_at_fuse data address recordData data' E Hrange Ha Hend Hclear).
  - apply byte_at_assign. exact Hclear.
Qed.

(** X11.  [read] ends on every file: a turn of its loop that goes on to the
    next one has consumed at least a character, so that a file of [n]
    characters is decoded in at most [n + 1] turns, each ending by a return
    or an exception or leading to the next. *)
Theorem decode_ends (uninit : Z -> ascii) (content : list ascii)
    (data : ChunkMap.t) :
  (exists data' o, read uninit content data = Some (data', o))
  /\ forall ifs ifs' lineCounter baseAddress baseAddress' model model',
      IStream.good ifs = true ->
      read_record (uninit lineCounter) ifs lineCounter baseAddress model
      = Continue ifs' baseAddress' model' ->
      (measure ifs' < measure ifs)%nat.
Proof.
  split.
  - apply read_total.
  - intros ifs ifs' lineCounter baseAddress baseAddress' model model' Hgood E.
    exact (read_record_measure _ _ _ _ _ _ _ _ Hgood E).
Qed.

(** ** The lines the encoder writes *)

Lemma segment_record_accepted (value : Z) :
  0 <= value < 65536 -> accepted (segment_record value).
Proof.
  intros Hv. split; [| split].
  - apply sealed_ok; try lia. apply value_bytes. assumption.
  - right. split; [left; reflexivity | split; reflexivity].
  - reflexivity.
Qed.

Lemma data_record_accepted (address : Z) (payload : list Z) :
  0 <= address < 65536 -> bytes payload -> size payload < 256 ->
  accepted (data_record address payload).
Proof.
  intros Ha Hp Hs. split; [| split].
  - apply data_record_ok; assumption.
  - left. split; reflexivity.
  - reflexivity.
Qed.

Lemma land_65535_range (address : Z) : 0 <= Z.land address 65535 < 65536.
Proof.
  change 65535 with (Z.ones 16). rewrite Z.land_ones by lia.
  apply Z.mod_pos_bound. lia.
Qed.

Lemma page_range (x : Z) : 0 <= Z.shiftr (uint32 x) 16 < 65536.
Proof.
  rewrite Z.shiftr_div_pow2 by lia.
  assert (0 <= uint32 x < 2 ^ 32) by (unfold uint32; apply Z.mod_pos_bound; lia).
  split; [apply Z.div_pos; lia | apply Z.div_lt_upper_bound; lia].
Qed.

Lemma written_for_accepted (address : Z) (item : hexrecord * list ascii) :
  written_for address item -> accepted (fst item) /\ blank (snd item).
Proof.
  intros [Hws [(page & Hpage & Hr) | (row & Hsize & Hbytes & Hr)]];
    rewrite Hws, Hr; (split; [| apply blank_newline]).
  - apply segment_record_accepted, swap16_range. assumption.
  - apply data_record_accepted;
      [apply swap16_range, land_65535_range | assumption | lia].
Qed.

Lemma written_for_well_formed (address : Z)
    (rs : list (hexrecord * list ascii)) :
  Forall (written_for address) rs -> well_formed rs.
Proof.
  intros H. unfold well_formed.
  induction H as [| item rs Hitem Hrs IH]; constructor.
  - apply (written_for_accepted address). exact Hitem.
  - exact IH.
Qed.

Lemma firstn_min32 (l : list Z) (k : nat) :
  k = Nat.min (List.length l) 32 ->
  firstn k l = firstn 32 l /\ skipn k l = skipn 32 l.
Proof.
  intros ->. destruct (Nat.le_gt_cases (List.length l) 32) as [Hle | Hgt].
  - rewrite Nat.min_l by assumption.
    rewrite firstn_all, skipn_all, firstn_all2, skipn_all2 by assumption.
    split; reflexivity.
  - rewrite Nat.min_r by lia. split; reflexivity.
Qed.

Lemma bytes_firstn_skipn (l : list Z) (n k : nat) :
  bytes l -> bytes (firstn k (skipn n l)).
Proof.
  unfold bytes. intros H.
  rewrite <- (firstn_skipn n l) in H. apply Forall_app in H.
  destruct H as [_ H].
  rewrite <- (firstn_skipn k (skipn n l)) in H. apply Forall_app in H.
  exact (proj1 H).
Qed.

Lemma layout_app (rs rs' : list (hexrecord * list ascii)) :
  layout (rs ++ rs') = layout rs ++ layout rs'.
Proof.
  induction rs as [| [r ws] rs IH]; cbn [app layout]; [reflexivity |].
  rewrite IH, <- !app_assoc. reflexivity.
Qed.

(** The inner loop of [write], line by line. *)
Lemma write_rows_layout (fuel : nat) :
  forall (ofs : OStream.t) (address amount : Z) (second : list Z)
         (count highAddress : Z) (out : OStream.t),
    bytes second -> amount = size second -> amount < 2 ^ 32 ->
    0 <= count <= amount ->
    write_rows fuel ofs address amount second count highAddress = Some out ->
    exists rs,
      out = ofs ++ layout rs
      /\ Forall (written_for address) rs
      /\ data_rows rs = slices fuel (skipn (Z.to_nat count) second).
Proof.
  induction fuel as [| fuel IH];
    intros ofs address amount second count highAddress out
      Hbytes Hamount Hlt Hcount E.
  - cbn [write_rows] in E.
    destruct (Z.ltb_spec count amount); [discriminate E |].
    injection E as <-. exists []. cbn [layout slices data_rows flat_map].
    rewrite app_nil_r. repeat split. constructor.
  - cbn [write_rows] in E.
    destruct (Z.ltb_spec count amount) as [Hmore | Hdone].
    + rewrite (uint32_small (amount - count)) in E by lia.
      set (rowCount := Z.min (amount - count) 32) in *.
      assert (Hrow : 1 <= rowCount <= 32 /\ rowCount <= amount - count)
        by (unfold rowCount; lia).
      rewrite (uint32_small (count + rowCount)) in E by lia.
      set (newHighAddress := Z.shiftr (uint32 (address + count)) 16) in *.
      set (remaining := skipn (Z.to_nat count) second) in *.
      set (buffer := firstn (Z.to_nat rowCount) remaining) in *.
      assert (Hremaining : List.length remaining
                           = (List.length second - Z.to_nat count)%nat)
        by (unfold remaining; apply length_skipn).
      assert (Hk : Z.to_nat rowCount = Nat.min (List.length remaining) 32).
      { rewrite Hremaining. unfold rowCount. unfold size in Hamount. lia. }
      destruct (firstn_min32 remaining _ Hk) as [Hfirst Hskip].
      assert (Hbuffer : size buffer = rowCount).
      { unfold size, buffer. rewrite length_firstn. lia. }
      rewrite <- Hbuffer in E at 1.
      set (ofs1 := if negb (newHighAddress =? highAddress)
                   then writeExtendedLinearAddressRecord ofs newHighAddress
                   else ofs) in *.
      rewrite (writeData_text ofs1 _ buffer (land_65535_range address)) in E.
      assert (Hcount' : 0 <= count + rowCount <= amount) by lia.
      destruct (IH _ _ _ _ _ _ _ Hbytes Hamount Hlt Hcount' E)
        as (rs' & Hout & Hrs' & Hrows').
      assert (Hdata : written_for address
                        (data_record (swap16 (Z.land address 65535)) buffer,
                         newline)).
      { split; [reflexivity |]. right. exists buffer.
        repeat split; try lia.
        unfold buffer, remaining. apply bytes_firstn_skipn. assumption. }
      assert (Hnext : skipn (Z.to_nat (count + rowCount)) second
                      = skipn 32 remaining).
      { rewrite <- Hskip. unfold remaining. rewrite skipn_skipn.
        f_equal. lia. }
      assert (Hslices : slices (S fuel) remaining
                        = buffer :: slices fuel (skipn 32 remaining)).
      { cbn [slices]. destruct remaining as [| x xs] eqn:Erem.
        - cbn [List.length] in Hk. lia.
        - unfold buffer. rewrite Hfirst. reflexivity. }
      rewrite Hslices, <- Hnext, <- Hrows'.
      destruct (negb (newHighAddress =? highAddress)) eqn:Echanged.
      * exists ((segment_record (swap16 newHighAddress), newline)
                  :: (data_record (swap16 (Z.land address 65535)) buffer,
                      newline) :: rs').
        split; [| split].
        -- rewrite Hout. unfold ofs1.
           rewrite writeExtendedLinearAddressRecord_text
             by apply page_range.
           cbn [layout]. rewrite <- !app_assoc. reflexivity.
        -- constructor; [| constructor; assumption].
           split; [reflexivity |]. left. exists newHighAddress.
           split; [apply page_range | reflexivity].
        -- reflexivity.
      * exists ((data_record (swap16 (Z.land address 65535)) buffer, newline)
                  :: rs').
        split; [| split].
        -- rewrite Hout. unfold ofs1. cbn [layout].
           rewrite <- !app_assoc. reflexivity.
        -- constructor; assumption.
        -- reflexivity.
    + injection E as <-. exists [].
      cbn [layout data_rows flat_map]. rewrite app_nil_r.
      split; [reflexivity |]. split; [constructor |].
      rewrite skipn_all2 by (unfold size in *; lia). reflexivity.
Qed.

Lemma concat_slices (fuel : nat) :
  forall l : list Z,
    (List.length l <= fuel)%nat -> List.concat (slices fuel l) = l.
Proof.
  induction fuel as [| fuel IH]; intros [| x xs] Hlen;
    cbn [slices List.concat]; try reflexivity.
  - cbn [List.length] in Hlen. lia.
  - rewrite IH.
    + apply firstn_skipn.
    + rewrite length_skipn. lia.
Qed.

Lemma slices_sizes (fuel : nat) :
  forall l : list Z, Forall (fun row => 0 < size row <= 32) (slices fuel l).
Proof.
  induction fuel as [| fuel IH]; intros [| x xs]; cbn [slices];
    try constructor.
  - unfold size. rewrite length_firstn. cbn [List.length]. lia.
  - apply IH.
Qed.

Lemma write_chunk_layout (ofs : OStream.t) (first : Z) (second : list Z) :
  chunk_ok (first, second) ->
  exists rs,
    write_chunk ofs (first, second)
    = Some (ofs
            ++ layout ((segment_record (swap16 (Z.shiftr (uint32 first) 16)),
                        newline) :: rs))
    /\ Forall (written_for (uint32 first)) rs
    /\ data_rows rs = rows second.
Proof.
  intros [Hbytes Hsize]. cbn [snd] in Hbytes, Hsize.
  pose proof (size_nonneg second) as Hnonneg.
  unfold write_chunk. rewrite (uint32_small (size second)) by lia.
  destruct (write_rows_total (List.length second)
              (writeExtendedLinearAddressRecord ofs
                 (Z.shiftr (uint32 first) 16))
              (uint32 first) (size second) second 0
              (Z.shiftr (uint32 first) 16)) as [out E];
    [lia | lia | unfold size; lia |].
  assert (Hcount : 0 <= 0 <= size second) by lia.
  destruct (write_rows_layout _ _ _ _ _ _ _ _ Hbytes eq_refl Hsize Hcount E)
    as (rs & Hout & Hrs & Hrows).
  exists rs. rewrite E, Hout.
  rewrite writeExtendedLinearAddressRecord_text by apply page_range.
  cbn [layout]. rewrite <- !app_assoc.
  repeat split; assumption.
Qed.

Lemma write_chunks_layout (data : ChunkMap.t) :
  forall ofs : OStream.t,
    Forall chunk_ok data ->
    exists rs,
      write_chunks ofs data = Some (ofs ++ layout rs)
      /\ well_formed rs
      /\ List.concat (data_rows rs) = flat_map snd data.
Proof.
  induction data as [| [first second] rest IH]; intros ofs Hdata.
  - exists []. cbn [write_chunks layout data_rows flat_map List.concat].
    rewrite app_nil_r. repeat split. constructor.
  - inversion Hdata as [| c cs Hchunk Hrest]; subst.
    destruct (write_chunk_layout ofs first second Hchunk)
      as (rs1 & E1 & Hrs1 & Hrows1).
    cbn [write_chunks]. rewrite E1.
    destruct (IH (ofs
                  ++ layout ((segment_record
                                (swap16 (Z.shiftr (uint32 first) 16)),
                              newline) :: rs1)) Hrest)
      as (rs2 & E2 & Hrs2 & Hrows2).
    exists (((segment_record (swap16 (Z.shiftr (uint32 first) 16)), newline)
               :: rs1) ++ rs2).
    split; [| split].
    + rewrite E2, layout_app, <- !app_assoc. reflexivity.
    + apply Forall_app. split; [| exact Hrs2].
      constructor.
      * cbn [fst snd]. split; [| apply blank_newline].
        apply segment_record_accepted, swap16_range, page_range.
      * apply (written_for_well_formed (uint32 first)). exact Hrs1.
    + unfold data_rows. rewrite flat_map_app. fold (data_rows rs2).
      cbn [flat_map fst]. fold (data_rows rs1).
      change (r_type (segment_record (swap16 (Z.shiftr (uint32 first) 16)))
              =? 0) with false.
      cbn [app flat_map snd]. rewrite concat_app, Hrows2, Hrows1.
      unfold rows. rewrite concat_slices by lia. reflexivity.
Qed.

(** X13.  The decoder accepts what the encoder writes.  For every model of
    chunks of bytes, [write] produces a text: lines of well-formed records,
    each with the checksum the decoder computes, then the end-of-file record
    without a newline.  The data records carry the bytes of the model, chunk
    after chunk, in order.  [read] of that text returns normally, whatever
    the model was before: no record of it is rejected. *)
Theorem decoder_accepts_what_encoder_writes (uninit : Z -> ascii)
    (data before : ChunkMap.t) :
  Forall chunk_ok data ->
  exists rs,
    well_formed rs
    /\ write data = Some (layout rs ++ eof_text)
    /\ List.concat (data_rows rs) = flat_map snd data
    /\ read uninit (layout rs ++ eof_text) before
       = Some (snd (effects rs (0, before)), Returned).
Proof.
  intros Hdata.
  destruct (write_chunks_layout data OStream.open Hdata)
    as (rs & E & Hrs & Hrows).
  exists rs. split; [exact Hrs |]. split; [| split; [exact Hrows |]].
  - unfold write. rewrite E. reflexivity.
  - rewrite <- (app_nil_r eof_text). apply read_file. exact Hrs.
Qed.



(** ** Head fusion *)

Lemma fuse_app (before m : ChunkMap.t) (address : Z) (recordData : list Z) :
  fuse before address recordData = None ->
  fuse (before ++ m) address recordData
  = match fuse m address recordData with
    | Some m' => Some (before ++ m')
    | None => None
    end.
Proof.
  induction before as [| [first second] before IH]; intros E; cbn [app].
  - destruct (fuse m address recordData); reflexivity.
  - cbn [fuse] in *.
    destruct (address =? size_t (first + size second)); [discriminate E |].
    destruct (size_t (address + size recordData) =? first); [discriminate E |].
    destruct (fuse before address recordData); [discriminate E |].
    rewrite IH by reflexivity.
    destruct (fuse m address recordData); reflexivity.
Qed.

(** X15.  Head fusion as the code does it.  A record that ends exactly where
    a chunk starts, and fuses with no chunk before that one, has its bytes put
    in front of the bytes of the chunk, and the chunk stays under its old
    start address: the map entry is not moved to the address of the record,
    and no entry is added. *)
Theorem head_fusion_keeps_the_old_start (before after : ChunkMap.t)
    (first : Z) (second recordData : list Z) :
  0 < size recordData <= first -> first + size second < 2 ^ 64 ->
  fuse before (first - size recordData) recordData = None ->
  insert_run (before ++ (first, second) :: after)
    (first - size recordData) recordData
  = before ++ (first, recordData ++ second) :: after.
Proof.
  intros Hd Hend Hbefore. pose proof (size_nonneg second) as Hs.
  unfold insert_run. rewrite (fuse_app _ _ _ _ Hbefore). cbn [fuse].
  rewrite !size_t_small by lia.
  destruct (Z.eqb_spec (first - size recordData) (first + size second));
    [lia |].
  destruct (Z.eqb_spec (first - size recordData + size recordData) first);
    [reflexivity | lia].
Qed.

(** ** The further properties at concrete inputs *)

(** The four digits [1Af0]. *)
Lemma lexer_reads_digits_of_either_case_witness :
  getUint16 (IStream.mk ["1"; "A"; "f"; "0"; ":"]%char true)
  = (4096 * 1 + 256 * 10 + 16 * 15 + 0, IStream.mk [":"%char] true).
Proof.
  apply (lexer_reads_digits_of_either_case 1 10 15 0
           "1"%char "A"%char "f"%char "0"%char [":"%char]);
    try lia.
  - left. reflexivity.
  - right. reflexivity.
  - left. reflexivity.
  - left. reflexivity.
Defined.

Lemma lexer_reads_formatter_witness :
  exists c1 c2,
    OStream.put_hex2 [] 171 = [] ++ [c1; c2]
    /\ getUint8 (IStream.mk ([c1; c2] ++ []) true) = (171, IStream.mk [] true).
Proof.
  apply (lexer_reads_formatter [] 171 []). lia.
Defined.

Lemma lexer_at_end_of_stream_witness :
  uint8 (fst (getUint8 (IStream.open []))) = 255.
Proof.
  apply (lexer_at_end_of_stream (IStream.open [])). left. reflexivity.
Defined.

Lemma missing_colon_is_invalid_record_witness :
  read_loop 1 (fun _ => ":"%char) (IStream.mk ([] ++ ["x"%char]) true)
    7 0 ChunkMap.empty
  = Some (ChunkMap.empty, Thrown (InvalidRecord 7)).
Proof.
  apply (missing_colon_is_invalid_record (fun _ => ":"%char) 0 [] []
           "x"%char 7 0 ChunkMap.empty).
  - constructor.
  - reflexivity.
  - discriminate.
Defined.

(** An end-of-file record with a length, an address and no checksum. *)
Lemma end_of_file_record_returns_witness :
  read_loop 1 (fun _ => "x"%char)
    (IStream.mk ([] ++ ":"%char :: ["1"; "0"]%char ++ ["A"; "B"]%char
                    ++ ["C"; "D"]%char ++ ["0"; "1"]%char ++ ["z"%char]) true)
    0 0 [(0, [1])]
  = Some ([(0, [1])], Returned).
Proof.
  apply (end_of_file_record_returns (fun _ => "x"%char) 0 []
           ["1"; "0"]%char ["A"; "B"]%char ["C"; "D"]%char ["0"; "1"]%char
           ["z"%char] 16 171 205 0 0 [(0, [1])]).
  - constructor.
  - reflexivity.
  - reflexivity.
  - reflexivity.
  - reflexivity.
Defined.

(** A record of type 03. *)
Lemma unknown_record_type_is_rejected_witness :
  read_loop 1 (fun _ => "x"%char)
    (IStream.mk ([] ++ ":"%char :: ["0"; "0"]%char ++ ["0"; "0"]%char
                    ++ ["0"; "0"]%char ++ ["0"; "3"]%char ++ ["F"; "D"]%char)
       true)
    0 0 ChunkMap.empty
  = Some (ChunkMap.empty, Thrown (UnknownRecordType 0 3)).
Proof.
  apply (unknown_record_type_is_rejected (fun _ => "x"%char) 0 []
           ["0"; "0"]%char ["0"; "0"]%char ["0"; "0"]%char ["0"; "3"]%char
           ["F"; "D"]%char 0 0 0 3 0 0 ChunkMap.empty);
    try reflexivity; try discriminate.
  constructor.
Defined.




Lemma insertion_stores_the_run_witness :
  ChunkMap.byte_at (insert_run [(0, [1; 2])] 2 [3]) 2
  = if (2 <=? 2) && (2 <? 2 + size [3])
    then nth_error [3] (Z.to_nat (2 - 2))
    else ChunkMap.byte_at [(0, [1; 2])] 2.
Proof.
  apply (insertion_stores_the_run [(0, [1; 2])] 2 [3] 2).
  - intros a b [H | []]. injection H as <- <-. vm_compute.
    split; [discriminate | reflexivity].
  - lia.
  - vm_compute. reflexivity.
  - intros a b [H | []]. injection H as <- <-. right. vm_compute.
    discriminate.
Defined.

Lemma chunk_ok_example : Forall chunk_ok [(16, [1; 2; 3])].
Proof.
  constructor; [| constructor]. split; cbn [snd].
  - repeat constructor; lia.
  - vm_compute. reflexivity.
Qed.

Lemma decoder_accepts_what_encoder_writes_witness :
  exists rs,
    write [(16, [1; 2; 3])] = Some (layout rs ++ eof_text)
    /\ read (fun _ => "x"%char) (layout rs ++ eof_text) ChunkMap.empty
       = Some (snd (effects rs (0, ChunkMap.empty)), Returned).
Proof.
  destruct (decoder_accepts_what_encoder_writes (fun _ => "x"%char)
              [(16, [1; 2; 3])] ChunkMap.empty chunk_ok_example)
    as (rs & _ & E & _ & Hread).
  exists rs. split; [exact E | exact Hread].
Defined.


(** A record of one byte for the address 256, in a model whose second chunk
    starts at 257. *)
Lemma head_fusion_keeps_the_old_start_witness :
  insert_run ([(16, [9])] ++ (257, [2]) :: [(512, [7])]) (257 - size [1]) [1]
  = [(16, [9])] ++ (257, [1] ++ [2]) :: [(512, [7])].
Proof.
  apply (head_fusion_keeps_the_old_start [(16, [9])] [(512, [7])] 257 [2] [1]).
  - vm_compute. split; [reflexivity | discriminate].
  - vm_compute. reflexivity.
  - reflexivity.
Defined.

(** * The insertion, the base address and the rows, in full *)

(** ** The chunk an insertion fuses with *)

(** The scan stops at the first chunk that the record can be fused with. *)
Lemma fuse_first (data : ChunkMap.t) (address : Z) (recordData : list Z) :
  forall data',
    fuse data address recordData = Some data' ->
    exists before c b after,
      data = before ++ (c, b) :: after
      /\ fuse before address recordData = None
      /\ (address = size_t (c + size b)
          /\ data' = before ++ (c, b ++ recordData) :: after
          \/ address <> size_t (c + size b)
             /\ size_t (address + size recordData) = c
             /\ data' = before ++ (c, recordData ++ b) :: after).
Proof.
  induction data as [| [first second] rest IH]; intros data' E;
    [discriminate E |].
  cbn [fuse] in E.
  destruct (Z.eqb_spec address (size_t (first + size second))) as [Ht | Ht].
  { injection E as <-. exists [], first, second, rest.
    split; [reflexivity |]. split; [reflexivity |]. left. split; auto. }
  destruct (Z.eqb_spec (size_t (address + size recordData)) first) as [Hh | Hh].
  { injection E as <-. exists [], first, second, rest.
    split; [reflexivity |]. split; [reflexivity |]. right. repeat split; auto. }
  destruct (fuse rest address recordData) as [rest' |] eqn:Erest;
    [| discriminate E].
  injection E as <-.
  destruct (IH rest' eq_refl) as (before & c & b & after & Hdata & Hnone & Hcase).
  exists ((first, second) :: before), c, b, after.
  split; [rewrite Hdata; reflexivity |]. split.
  - cbn [fuse].
    destruct (Z.eqb_spec address (size_t (first + size second)));
      [contradiction |].
    destruct (Z.eqb_spec (size_t (address + size recordData)) first);
      [contradiction |].
    rewrite Hnone. reflexivity.
  - destruct Hcase as [[H1 H2] | (H1 & H2 & H3)]; [left | right];
      repeat split; try assumption; rewrite ?H2, ?H3; reflexivity.
Qed.

(** Under the conditions of a clean insertion a fusion is a tail fusion. *)
Lemma fuse_clear (data data' : ChunkMap.t) (address : Z)
    (recordData : list Z) :
  in_range data -> 0 <= address -> address + size recordData < 2 ^ 64 ->
  clear_of data address recordData ->
  fuse data address recordData = Some data' ->
  exists before c b after,
    data = before ++ (c, b) :: after
    /\ c + size b = address
    /\ data' = before ++ (c, b ++ recordData) :: after.
Proof.
  intros Hrange Ha Hend Hclear E.
  destruct (fuse_first _ _ _ _ E)
    as (before & c & b & after & Hdata & _ & Hcase).
  assert (Hin : In (c, b) data)
    by (rewrite Hdata; apply in_or_app; right; left; reflexivity).
  destruct (Hrange c b Hin) as [Hc0 Hc1].
  pose proof (size_nonneg b). pose proof (size_nonneg recordData).
  exists before, c, b, after.
  destruct Hcase as [[Ht Hd] | (Ht & Hh & Hd)].
  - rewrite size_t_small in Ht by lia. repeat split; auto.
  - rewrite size_t_small in Ht, Hh by lia.
    destruct (Hclear c b Hin); lia.
Qed.

Lemma assign_new (m : ChunkMap.t) (k : Z) (v : list Z) :
  ~ In k (keys m) ->
  In (k, v) (ChunkMap.assign m k v)
  /\ (forall x, In x m -> In x (ChunkMap.assign m k v))
  /\ List.length (ChunkMap.assign m k v) = S (List.length m).
Proof.
  induction m as [| [k' v'] rest IH]; intros Hnew; cbn [ChunkMap.assign].
  - repeat split; [left; reflexivity | intros x []].
  - assert (Hne : k <> k') by (intros ->; apply Hnew; left; reflexivity).
    assert (Hrest : ~ In k (keys rest))
      by (intros H; apply Hnew; right; exact H).
    destruct (IH Hrest) as (Hin & Hkeep & Hlen).
    destruct (Z.ltb_spec k k'); [| destruct (Z.eqb_spec k k'); [lia |]].
    + repeat split; [left; reflexivity | intros x Hx; right; exact Hx].
    + repeat split.
      * right. exact Hin.
      * intros x [<- | Hx]; [left; reflexivity | right; apply Hkeep; exact Hx].
      * cbn [List.length]. rewrite Hlen. reflexivity.
Qed.

Lemma ok_app_keys (before after : ChunkMap.t) (c : Z) (b : list Z) :
  ChunkMap.ok (before ++ (c, b) :: after) ->
  forall x, In x after -> c < fst x.
Proof.
  induction before as [| y before IH]; cbn [app]; intros Hok x Hx.
  - exact (ok_keys _ _ _ Hok x Hx).
  - exact (IH (ok_tail _ _ Hok) x Hx).
Qed.

(** The bytes of the model after a clean insertion. *)
Lemma byte_at_insert_run (data : ChunkMap.t) (address : Z)
    (recordData : list Z) (y : Z) :
  in_range data -> 0 <= address -> address + size recordData < 2 ^ 64 ->
  clear_of data address recordData ->
  ChunkMap.byte_at (insert_run data address recordData) y
  = if (address <=? y) && (y <? address + size recordData)
    then nth_error recordData (Z.to_nat (y - address))
    else ChunkMap.byte_at data y.
Proof.
  intros Hrange Ha Hend Hclear. unfold insert_run.
  destruct (fuse data address recordData) as [data' |] eqn:E.
  - apply (byte_at_fuse data address recordData data' E Hrange Ha Hend Hclear).
  - apply byte_at_assign. exact Hclear.
Qed.

(** ** An insertion that keeps the chunks apart, and one that does not *)

(** The invariant through a clean insertion. *)
Lemma insert_run_separated (data : ChunkMap.t) (address : Z)
    (recordData : list Z) :
  separated data -> in_range data ->
  0 <= address -> address + size recordData < 2 ^ 64 ->
  clear_of data address recordData ->
  separated (insert_run data address recordData).
Proof.
  intros Hsep Hrange Ha Hend Hclear.
  pose proof (size_nonneg recordData) as Hsize.
  assert (Hnohead : forall a b,
             In (a, b) data ->
             address <> size_t (a + size b) ->
             size_t (address + size recordData) <> a).
  { intros a b Hin Htail Hhead.
    destruct (Hrange a b Hin) as [Ha0 Ha1].
    pose proof (size_nonneg b).
    rewrite size_t_small in Htail, Hhead by lia.
    destruct (Hclear a b Hin); lia. }
  unfold insert_run.
  destruct (fuse data address recordData) as [data' |] eqn:E.
  - intros a1 b1 a2 b2 H1 H2 Hlt.
    destruct (fuse_some _ _ _ _ E _ H1)
      as [I1 | [(c1 & d1 & I1 & X1 & T1) | (c1 & d1 & I1 & X1 & T1 & F1)]];
      try (exfalso; exact (Hnohead _ _ I1 T1 F1));
      destruct (fuse_some _ _ _ _ E _ H2)
        as [I2 | [(c2 & d2 & I2 & X2 & T2) | (c2 & d2 & I2 & X2 & T2 & F2)]];
      try (exfalso; exact (Hnohead _ _ I2 T2 F2));
      try (injection X1 as -> ->); try (injection X2 as -> ->);
      try rewrite size_app.
    + exact (Hsep _ _ _ _ I1 I2 Hlt).
    + exact (Hsep _ _ _ _ I1 I2 Hlt).
    + destruct (Hrange _ _ I1) as [R1 R1'].
      pose proof (size_nonneg d1). pose proof (size_nonneg b2).
      rewrite size_t_small in T1 by lia.
      pose proof (Hsep _ _ _ _ I1 I2 Hlt).
      destruct (Hclear _ _ I2); lia.
    + destruct (Hrange _ _ I1) as [R1 R1'].
      destruct (Hrange _ _ I2) as [R2 R2'].
      pose proof (size_nonneg d1). pose proof (size_nonneg d2).
      rewrite size_t_small in T1, T2 by lia.
      pose proof (Hsep _ _ _ _ I1 I2 Hlt). lia.
  - intros a1 b1 a2 b2 H1 H2 Hlt.
    destruct (assign_in _ _ _ _ H1) as [X1 | I1];
      destruct (assign_in _ _ _ _ H2) as [X2 | I2];
      try (injection X1 as -> ->); try (injection X2 as -> ->).
    + lia.
    + pose proof (size_nonneg b2). destruct (Hclear _ _ I2); lia.
    + destruct (Hrange _ _ I1) as [R1 R1'].
      pose proof (size_nonneg b1).
      destruct (fuse_none _ _ _ E _ _ I1) as [T1 _].
      rewrite size_t_small in T1 by lia.
      destruct (Hclear _ _ I1); lia.
    + exact (Hsep _ _ _ _ I1 I2 Hlt).
Qed.

(** C2, as the code has it.  Take a model whose chunks are apart (of two
    chunks, the one that starts first ends strictly before the other starts)
    and a run that overlaps no stored chunk and does not end at the very
    address where a stored chunk starts.  After the insertion the chunks are
    still apart, and the insertion is one of two things: the run is appended
    to the one chunk that ends where the run starts, every other chunk staying
    as it is; or no chunk ends there, and the run becomes a chunk of its own
    at its address, beside all the chunks of before.  Either way the model
    holds the bytes of the run at their addresses and, elsewhere, what it held
    before.  But only one fusion is attempted: a run that starts where one
    chunk ends and ends where a later chunk starts is appended to the first
    and leaves it touching the second, which stays a chunk of its own.
    (Addresses are not negative and chunk ends are within a [size_t].) *)
Theorem insertion_keeps_chunks_apart :
  (forall (data : ChunkMap.t) (address : Z) (recordData : list Z),
      separated data -> in_range data ->
      0 <= address -> address + size recordData < 2 ^ 64 ->
      clear_of data address recordData ->
      separated (insert_run data address recordData)
      /\ ((exists before c b after,
              data = before ++ (c, b) :: after
              /\ c + size b = address
              /\ insert_run data address recordData
                 = before ++ (c, b ++ recordData) :: after)
          \/ ((forall c b, In (c, b) data -> c + size b <> address)
              /\ ~ In address (keys data)
              /\ In (address, recordData) (insert_run data address recordData)
              /\ (forall x, In x data ->
                            In x (insert_run data address recordData))
              /\ List.length (insert_run data address recordData)
                 = S (List.length data)))
      /\ forall y,
          ChunkMap.byte_at (insert_run data address recordData) y
          = if (address <=? y) && (y <? address + size recordData)
            then nth_error recordData (Z.to_nat (y - address))
            else ChunkMap.byte_at data y)
  /\ (forall (data : ChunkMap.t) (address : Z) (recordData : list Z)
             (c c2 : Z) (b b2 : list Z),
         ChunkMap.ok data -> separated data -> in_range data ->
         In (c, b) data -> In (c2, b2) data -> c < c2 ->
         c + size b = address -> address + size recordData = c2 ->
         ~ separated (insert_run data address recordData)
         /\ exists c' b',
             In (c', b' ++ recordData) (insert_run data address recordData)
             /\ In (c2, b2) (insert_run data address recordData)
             /\ c' + size (b' ++ recordData) = c2).
Proof.
  split.
  - intros data address recordData Hsep Hrange Ha Hend Hclear.
    split; [apply insert_run_separated; assumption |].
    split; [| intros y; apply byte_at_insert_run; assumption].
    unfold insert_run.
    destruct (fuse data address recordData) as [data' |] eqn:E.
    + left. exact (fuse_clear _ _ _ _ Hrange Ha Hend Hclear E).
    + right.
      assert (Hnotail : forall c b, In (c, b) data -> c + size b <> address).
      { intros c b Hin Heq.
        destruct (fuse_none _ _ _ E _ _ Hin) as [Ht _].
        destruct (Hrange c b Hin) as [Hc0 Hc1].
        rewrite size_t_small in Ht by lia. lia. }
      assert (Hnew : ~ In address (keys data)).
      { intros Hin. unfold keys in Hin. apply in_map_iff in Hin.
        destruct Hin as ([k v] & Hk & Hin). cbn [fst] in Hk. subst k.
        pose proof (size_nonneg v). pose proof (size_nonneg recordData).
        specialize (Hnotail _ _ Hin).
        destruct (Hclear _ _ Hin); lia. }
      destruct (assign_new data address recordData Hnew) as (H1 & H2 & H3).
      repeat split; assumption.
  - intros data address recordData c c2 b b2
      Hok Hsep Hrange Hin Hin2 Hlt Ht Hh.
    pose proof (size_nonneg b) as Sb. pose proof (size_nonneg b2) as Sb2.
    pose proof (size_nonneg recordData) as Sd.
    destruct (Hrange _ _ Hin) as [Rc0 Rc1].
    destruct (Hrange _ _ Hin2) as [Rd0 Rd1].
    unfold insert_run.
    destruct (fuse data address recordData) as [data' |] eqn:E.
    2:{ destruct (fuse_none _ _ _ E _ _ Hin) as [Hno _].
        rewrite size_t_small in Hno by lia. lia. }
    destruct (fuse_first _ _ _ _ E)
      as (before & c' & b' & after & Hdata & Hnone & Hcase).
    pose proof (size_nonneg b') as Sb'.
    assert (Hin' : In (c', b') data)
      by (rewrite Hdata; apply in_or_app; right; left; reflexivity).
    destruct (Hrange _ _ Hin') as [Re0 Re1].
    assert (Hpos : In (c, b) ((c', b') :: after)).
    { rewrite Hdata in Hin. apply in_app_or in Hin.
      destruct Hin as [Hb | Hb]; [| exact Hb].
      destruct (fuse_none _ _ _ Hnone _ _ Hb) as [Hno _].
      rewrite size_t_small in Hno by lia. lia. }
    assert (Hpos2 : In (c2, b2) ((c', b') :: after)).
    { rewrite Hdata in Hin2. apply in_app_or in Hin2.
      destruct Hin2 as [Hb | Hb]; [| exact Hb].
      destruct (fuse_none _ _ _ Hnone _ _ Hb) as [_ Hno].
      rewrite size_t_small in Hno by lia. lia. }
    rewrite Hdata in Hok.
    pose proof (ok_app_keys _ _ _ _ Hok) as Hafter.
    destruct Hcase as [[Hc' Hd] | (Hc' & Hh' & Hd)].
    + rewrite size_t_small in Hc' by lia.
      assert (Hc2 : c' < c2).
      { destruct (Z.eq_dec c' c2) as [-> | Hne]; [| lia].
        pose proof (Hsep _ _ _ _ Hin Hin' Hlt). lia. }
      assert (Hkept : In (c2, b2) data').
      { rewrite Hd. apply in_or_app. right. right.
        destruct Hpos2 as [Heq | Hx]; [| exact Hx].
        injection Heq as Heq _. lia. }
      assert (Hfused : In (c', b' ++ recordData) data')
        by (rewrite Hd; apply in_or_app; right; left; reflexivity).
      split.
      * intros Hs. specialize (Hs _ _ _ _ Hfused Hkept Hc2).
        rewrite size_app in Hs. lia.
      * exists c', b'. rewrite size_app. repeat split; try assumption. lia.
    + rewrite size_t_small in Hc', Hh' by lia. exfalso.
      destruct Hpos as [Heq | Hx].
      * injection Heq as <- <-. lia.
      * specialize (Hafter _ Hx). cbn [fst] in Hafter. lia.
Qed.

(** ** Extended addressing *)

(** C7.  An extended segment address record of value [v] sets the base
    address to [v << 4], an extended linear address record to [v << 16],
    whatever the base address was before; either kind with a declared length
    other than 2 is an [InvalidRecord].  A data record that follows is
    inserted at the base address plus its 16-bit address, and when its run
    overlaps no stored chunk and does not end where a stored chunk starts,
    the model then holds its bytes at those addresses and elsewhere what it
    held before.  A linear record of value [0x0001], or a segment record of
    value [0x1000], followed by a data record of address [0x0020], stores the
    data at [0x00010020].  But a data record that ends where a chunk starts is
    not stored at its address: after a linear record of value 1, a byte for
    [0x0021] and then a byte for [0x0020], the model is the one chunk at
    [0x00010021] holding both bytes, nothing is held at [0x00010020], and the
    byte sent for [0x00010020] is found at [0x00010021]. *)
Theorem extended_addressing :
  (* the base address is replaced *)
  (forall uninit ws rest value lineCounter baseAddress data,
      blank ws -> 0 <= value < 65536 ->
      read_record uninit
        (IStream.mk (ws ++ text_of (segment_record value) ++ rest) true)
        lineCounter baseAddress data
      = Continue (IStream.mk rest true) (Z.shiftl value 4) data
      /\ read_record uninit
           (IStream.mk (ws ++ text_of (linear_record value) ++ rest) true)
           lineCounter baseAddress data
         = Continue (IStream.mk rest true) (Z.shiftl value 16) data)
  (* the declared length has to be 2 *)
  /\ (forall uninit ws txt rest r lineCounter baseAddress data,
         blank ws -> is_text txt r ->
         r_type r = 2 \/ r_type r = 4 -> r_length r <> 2 ->
         read_record uninit (IStream.mk (ws ++ txt ++ rest) true)
           lineCounter baseAddress data
         = Stop data (Thrown (InvalidRecord lineCounter)))
  (* a data record goes to the base address plus its own address *)
  /\ (forall uninit ws rest value shift address payload lineCounter data,
         blank ws -> 0 <= value < 65536 -> shift = 4 \/ shift = 16 ->
         0 <= address < 65536 -> bytes payload -> size payload < 256 ->
         read_record uninit
           (IStream.mk (ws ++ text_of (data_record address payload) ++ rest)
              true)
           lineCounter (Z.shiftl value shift) data
         = Continue (IStream.mk rest true) (Z.shiftl value shift)
             (insert_run data (Z.shiftl value shift + address) payload)
         /\ (in_range data ->
             clear_of data (Z.shiftl value shift + address) payload ->
             forall y,
               ChunkMap.byte_at
                 (insert_run data (Z.shiftl value shift + address) payload) y
               = if (Z.shiftl value shift + address <=? y)
                    && (y <? Z.shiftl value shift + address + size payload)
                 then nth_error payload
                        (Z.to_nat (y - (Z.shiftl value shift + address)))
                 else ChunkMap.byte_at data y))
  (* the two examples *)
  /\ (forall uninit payload,
         bytes payload -> size payload < 256 ->
         read uninit
           (text_of (linear_record 1) ++ newline
            ++ text_of (data_record 32 payload) ++ newline ++ eof_text)
           ChunkMap.empty
         = Some ([(65568, payload)], Returned)
         /\ read uninit
              (text_of (segment_record 4096) ++ newline
               ++ text_of (data_record 32 payload) ++ newline ++ eof_text)
              ChunkMap.empty
            = Some ([(65568, payload)], Returned))
  (* a record that ends where a chunk starts *)
  /\ (forall uninit b0 b1,
         0 <= b0 < 256 -> 0 <= b1 < 256 ->
         read uninit
           (text_of (linear_record 1) ++ newline
            ++ text_of (data_record 33 [b1]) ++ newline
            ++ text_of (data_record 32 [b0]) ++ newline ++ eof_text)
           ChunkMap.empty
         = Some ([(65569, [b0; b1])], Returned)
         /\ ChunkMap.byte_at [(65569, [b0; b1])] 65568 = None
         /\ ChunkMap.byte_at [(65569, [b0; b1])] 65569 = Some b0).
Proof.
  split; [| split; [| split; [| split]]].
  - intros. split.
    + apply read_record_segment_record; assumption.
    + apply read_record_linear_record; assumption.
  - intros. eapply read_record_extended_length; eassumption.
  - intros uninit ws rest value shift address payload lineCounter data
      Hws Hv Hshift Ha Hp Hs.
    assert (Hbase : 0 <= Z.shiftl value shift
                    /\ Z.shiftl value shift + address < 2 ^ 32)
      by (destruct Hshift as [-> | ->]; rewrite Z.shiftl_mul_pow2 by lia; lia).
    split.
    + rewrite read_record_data_record by assumption.
      rewrite uint32_small; [rewrite Z.add_comm; reflexivity | lia].
    + intros Hrange Hclear y. pose proof (size_nonneg payload).
      apply byte_at_insert_run; try assumption; lia.
  - intros uninit payload Hp Hs. split.
    + rewrite (read_unfold 1), Nat.add_1_r. unfold IStream.open.
      erewrite read_loop_continue;
        [| apply (read_record_linear_record _ []); [apply blank_nil | lia]].
      erewrite read_loop_continue;
        [| apply read_record_data_record;
           [apply blank_newline | lia | assumption | assumption]].
      erewrite read_loop_stop;
        [| rewrite <- (app_nil_r eof_text); apply read_record_eof].
      reflexivity.
    + rewrite (read_unfold 1), Nat.add_1_r. unfold IStream.open.
      erewrite read_loop_continue;
        [| apply (read_record_segment_record _ []); [apply blank_nil | lia]].
      erewrite read_loop_continue;
        [| apply read_record_data_record;
           [apply blank_newline | lia | assumption | assumption]].
      erewrite read_loop_stop;
        [| rewrite <- (app_nil_r eof_text); apply read_record_eof].
      reflexivity.
  - intros uninit b0 b1 H0 H1.
    assert (B0 : bytes [b0]) by (repeat constructor; lia).
    assert (B1 : bytes [b1]) by (repeat constructor; lia).
    split; [| split].
    + rewrite (read_unfold 2).
      replace (S (S (List.length
                       (text_of (linear_record 1) ++ newline
                        ++ text_of (data_record 33 [b1]) ++ newline
                        ++ text_of (data_record 32 [b0]) ++ newline
                        ++ eof_text) + 2)))
        with (S (S (S (S (List.length
                            (text_of (linear_record 1) ++ newline
                             ++ text_of (data_record 33 [b1]) ++ newline
                             ++ text_of (data_record 32 [b0]) ++ newline
                             ++ eof_text)))))) by lia.
      unfold IStream.open.
      erewrite read_loop_continue;
        [| apply (read_record_linear_record _ []); [apply blank_nil | lia]].
      erewrite read_loop_continue;
        [| apply read_record_data_record;
           [apply blank_newline | lia | assumption | reflexivity]].
      erewrite read_loop_continue;
        [| apply read_record_data_record;
           [apply blank_newline | lia | assumption | reflexivity]].
      erewrite read_loop_stop;
        [| rewrite <- (app_nil_r eof_text); apply read_record_eof].
      reflexivity.
    + reflexivity.
    + reflexivity.
Qed.

(** ** The rows of a chunk, line by line *)

Lemma write_rows_lines (fuel : nat) :
  forall (ofs : OStream.t) (address amount : Z) (second : list Z)
         (count highAddress : Z),
    amount = size second -> amount < 2 ^ 32 -> 0 <= count <= amount ->
    (Z.to_nat (amount - count) <= fuel)%nat ->
    write_rows fuel ofs address amount second count highAddress
    = Some (ofs
            ++ layout (row_lines address count highAddress
                         (slices fuel (skipn (Z.to_nat count) second)))).
Proof.
  induction fuel as [| fuel IH];
    intros ofs address amount second count highAddress
      Hamount Hlt Hcount Hfuel.
  - cbn [write_rows slices row_lines layout].
    destruct (Z.ltb_spec count amount); [lia |].
    rewrite app_nil_r. reflexivity.
  - cbn [write_rows].
    destruct (Z.ltb_spec count amount) as [Hmore | Hdone].
    + rewrite (uint32_small (amount - count)) by lia.
      set (rowCount := Z.min (amount - count) 32).
      assert (Hrow : 1 <= rowCount <= 32 /\ rowCount <= amount - count)
        by (unfold rowCount; lia).
      rewrite (uint32_small (count + rowCount)) by lia.
      set (newHighAddress := Z.shiftr (uint32 (address + count)) 16).
      set (remaining := skipn (Z.to_nat count) second).
      set (buffer := firstn (Z.to_nat rowCount) remaining).
      assert (Hremaining : List.length remaining
                           = (List.length second - Z.to_nat count)%nat)
        by (unfold remaining; apply length_skipn).
      assert (Hk : Z.to_nat rowCount = Nat.min (List.length remaining) 32).
      { rewrite Hremaining. unfold rowCount. unfold size in Hamount. lia. }
      destruct (firstn_min32 remaining _ Hk) as [Hfirst Hskip].
      assert (Hbuffer : size buffer = rowCount).
      { unfold size, buffer. rewrite length_firstn. lia. }
      rewrite <- Hbuffer at 1.
      rewrite (writeData_text _ _ buffer (land_65535_range address)).
      assert (Hcount' : 0 <= count + rowCount <= amount) by lia.
      rewrite (IH _ address amount second (count + rowCount) newHighAddress
                 Hamount Hlt Hcount') by lia.
      assert (Hnext : skipn (Z.to_nat (count + rowCount)) second
                      = skipn 32 remaining).
      { rewrite <- Hskip. unfold remaining. rewrite skipn_skipn.
        f_equal. lia. }
      assert (Hslices : slices (S fuel) remaining
                        = buffer :: slices fuel (skipn 32 remaining)).
      { cbn [slices]. destruct remaining as [| x xs] eqn:Erem.
        - cbn [List.length] in Hk. lia.
        - unfold buffer. rewrite Hfirst. reflexivity. }
      rewrite Hslices, Hnext. cbn [row_lines].
      fold newHighAddress. rewrite Hbuffer.
      f_equal. rewrite layout_app. cbn [layout].
      destruct (Z.eqb_spec newHighAddress highAddress) as [Hsame | Hchanged];
        cbn [negb layout].
      * rewrite <- !app_assoc. reflexivity.
      * rewrite writeExtendedLinearAddressRecord_text by apply page_range.
        rewrite <- !app_assoc. reflexivity.
    + rewrite skipn_all2 by (unfold size in *; lia).
      cbn [slices row_lines layout]. rewrite app_nil_r. reflexivity.
Qed.

Lemma data_rows_row_lines (rws : list (list Z)) :
  forall address count highAddress,
    data_rows (row_lines address count highAddress rws) = rws.
Proof.
  induction rws as [| row rws IH]; intros address count highAddress;
    [reflexivity |].
  cbn [row_lines]. unfold data_rows. rewrite flat_map_app.
  cbn [flat_map fst]. fold (data_rows
    (row_lines address (count + size row)
       (Z.shiftr (uint32 (address + count)) 16) rws)).
  rewrite IH.
  destruct (Z.shiftr (uint32 (address + count)) 16 =? highAddress);
    reflexivity.
Qed.

(** X12.  The lines of a chunk.  For a chunk of bytes the encoder writes
    exactly this: the address record of the 64K page of the start address;
    then, for each row of 32 bytes of the chunk in turn (the last row holding
    what is left), the address record of the page in which the row starts when
    that page is not the page of the address record written last, and the
    data record of the row, which carries the low 16 bits of the start
    address of the chunk, the same for every row.  The rows put together are
    the bytes of the chunk, no row is empty or longer than 32 bytes, and the
    data records are those of the rows, in order. *)
Theorem chunk_is_written_in_rows (ofs : OStream.t) (first : Z)
    (second : list Z) :
  chunk_ok (first, second) ->
  write_chunk ofs (first, second)
  = Some (ofs
          ++ text_of (segment_record (swap16 (Z.shiftr (uint32 first) 16)))
          ++ newline
          ++ layout (row_lines (uint32 first) 0 (Z.shiftr (uint32 first) 16)
                       (rows second)))
  /\ data_rows (row_lines (uint32 first) 0 (Z.shiftr (uint32 first) 16)
                  (rows second))
     = rows second
  /\ List.concat (rows second) = second
  /\ Forall (fun row => 0 < size row <= 32) (rows second).
Proof.
  intros [_ Hsize]. cbn [snd] in Hsize.
  pose proof (size_nonneg second) as Hnonneg.
  split; [| split; [| split]].
  - unfold write_chunk. rewrite (uint32_small (size second)) by lia.
    rewrite (write_rows_lines (List.length second) _ (uint32 first)
               (size second) second 0 (Z.shiftr (uint32 first) 16)
               eq_refl Hsize) by (unfold size; lia).
    rewrite writeExtendedLinearAddressRecord_text by apply page_range.
    rewrite <- !app_assoc. reflexivity.
  - apply data_rows_row_lines.
  - unfold rows. apply concat_slices. lia.
  - unfold rows. apply slices_sizes.
Qed.

(** ** These theorems at concrete inputs *)

Lemma three_chunks_apart :
  separated [(0, [1; 2]); (10, [5]); (20, [6])]
  /\ in_range [(0, [1; 2]); (10, [5]); (20, [6])]
  /\ clear_of [(0, [1; 2]); (10, [5]); (20, [6])] 2 [3].
Proof.
  split; [| split].
  - intros a1 b1 a2 b2 H1 H2 Hlt. cbn [In] in H1, H2.
    destruct H1 as [H1 | [H1 | [H1 | []]]];
      destruct H2 as [H2 | [H2 | [H2 | []]]];
      injection H1 as <- <-; injection H2 as <- <-;
      unfold size; cbn [List.length]; lia.
  - intros a b H. cbn [In] in H.
    destruct H as [H | [H | [H | []]]]; injection H as <- <-;
      unfold size; cbn [List.length]; lia.
  - intros a b H. cbn [In] in H.
    destruct H as [H | [H | [H | []]]]; injection H as <- <-;
      unfold size; cbn [List.length]; lia.
Qed.

Lemma two_chunks_apart :
  ChunkMap.ok [(0, [17]); (2, [51])]
  /\ separated [(0, [17]); (2, [51])] /\ in_range [(0, [17]); (2, [51])].
Proof.
  split; [| split].
  - cbn [ChunkMap.ok]. repeat split.
  - intros a1 b1 a2 b2 H1 H2 Hlt. cbn [In] in H1, H2.
    destruct H1 as [H1 | [H1 | []]]; destruct H2 as [H2 | [H2 | []]];
      injection H1 as <- <-; injection H2 as <- <-;
      unfold size; cbn [List.length]; lia.
  - intros a b H. cbn [In] in H.
    destruct H as [H | [H | []]]; injection H as <- <-;
      unfold size; cbn [List.length]; lia.
Qed.

(** A run appended to the first of three chunks, and a run between two
    chunks that it bridges. *)
Lemma insertion_keeps_chunks_apart_witness :
  (separated (insert_run [(0, [1; 2]); (10, [5]); (20, [6])] 2 [3])
   /\ ChunkMap.byte_at (insert_run [(0, [1; 2]); (10, [5]); (20, [6])] 2 [3]) 2
      = Some 3
   /\ insert_run [(0, [1; 2]); (10, [5]); (20, [6])] 2 [3]
      = [(0, [1; 2; 3]); (10, [5]); (20, [6])])
  /\ ~ separated (insert_run [(0, [17]); (2, [51])] 1 [34]).
Proof.
  destruct three_chunks_apart as (Hsep & Hrange & Hclear).
  destruct two_chunks_apart as (Hok2 & Hsep2 & Hrange2).
  split.
  - destruct (proj1 insertion_keeps_chunks_apart
                [(0, [1; 2]); (10, [5]); (20, [6])] 2 [3] Hsep Hrange
                ltac:(lia) eq_refl Hclear) as (Hafter & _ & Hbytes).
    split; [exact Hafter |]. split; [| reflexivity].
    rewrite (Hbytes 2). reflexivity.
  - apply (proj2 insertion_keeps_chunks_apart
             [(0, [17]); (2, [51])] 1 [34] 0 2 [17] [51]
             Hok2 Hsep2 Hrange2 (or_introl eq_refl)
             (or_intror (or_introl eq_refl)) eq_refl eq_refl eq_refl).
Defined.

(** A data record after a linear record, into a model that holds a chunk;
    and the record that ends where a chunk starts. *)
Lemma extended_addressing_witness :
  read_record "x"%char
    (IStream.mk ([] ++ text_of (data_record 32 [7]) ++ newline) true)
    0 (Z.shiftl 1 16) [(65536, [1; 2])]
  = Continue (IStream.mk newline true) (Z.shiftl 1 16)
      (insert_run [(65536, [1; 2])] (Z.shiftl 1 16 + 32) [7])
  /\ ChunkMap.byte_at
       (insert_run [(65536, [1; 2])] (Z.shiftl 1 16 + 32) [7]) 65568
     = Some 7
  /\ read (fun _ => "x"%char)
       (text_of (linear_record 1) ++ newline
        ++ text_of (data_record 33 [187]) ++ newline
        ++ text_of (data_record 32 [170]) ++ newline ++ eof_text)
       ChunkMap.empty
     = Some ([(65569, [170; 187])], Returned).
Proof.
  destruct extended_addressing as (_ & _ & Hdata & _ & Hhead).
  assert (Hws : blank []) by constructor.
  assert (Hshift : 16 = 4 \/ 16 = 16) by (right; reflexivity).
  assert (Hpayload : bytes [7]) by (repeat constructor; lia).
  assert (Hsize : size [7] < 256) by reflexivity.
  destruct (Hdata "x"%char [] newline 1 16 32 [7] 0 [(65536, [1; 2])]
              Hws ltac:(lia) Hshift ltac:(lia) Hpayload Hsize)
    as [Hturn Hbytes].
  split; [exact Hturn |]. split.
  - rewrite Hbytes; [reflexivity | |].
    + intros a b [H | []]. injection H as <- <-.
      unfold size; cbn [List.length]; lia.
    + intros a b [H | []]. injection H as <- <-. right. vm_compute.
      discriminate.
  - apply (proj1 (Hhead (fun _ => "x"%char) 170 187 ltac:(lia) ltac:(lia))).
Defined.

Lemma chunk_across_pages : chunk_ok (65504, repeat 7 40).
Proof.
  split; cbn [snd].
  - apply Forall_forall. intros x Hx. apply repeat_spec in Hx. subst. lia.
  - vm_compute. reflexivity.
Qed.

(** A chunk of 40 bytes that starts 32 bytes before a page boundary: a row of
    32 bytes, the address record of the next page, a row of 8 bytes. *)
Lemma chunk_is_written_in_rows_witness :
  write_chunk [] (65504, repeat 7 40)
  = Some ([] ++ text_of (segment_record (swap16 0)) ++ newline
          ++ layout [(data_record (swap16 65504) (repeat 7 32), newline);
                     (segment_record (swap16 1), newline);
                     (data_record (swap16 65504) (repeat 7 8), newline)]).
Proof.
  exact (proj1 (chunk_is_written_in_rows [] 65504 (repeat 7 40)
                  chunk_across_pages)).
Defined.
